(** * Inbox Management Agent: node specifications

    A verification development for
    [examples/templates/inbox_management/nodes/__init__.py].

    The module declares four [NodeSpec] values (Intake, Fetch Emails,
    Classify and Act, Report).  Each one is configuration: an identifier,
    the State Store keys it reads and writes, the tools it may call and the
    instruction text handed to the decision-maker.  The development embeds
    the four values field by field, the instruction texts line by line, and
    the procedures those texts prescribe as functions in a small session
    monad running against a Tool Gateway. *)

From Stdlib Require Import String Ascii List Bool Arith Lia.
From Stdlib Require DecimalString DecimalNat.
From stdpp Require Import base option list strings gmap.

Local Open Scope string_scope.
Local Open Scope list_scope.

(** ** Text helpers *)

(** The double-quote character; instruction texts quote keys and values. *)
Definition dq : string := String (ascii_of_nat 34) EmptyString.

(** [q s] is [s] between double quotes. *)
Definition q (s : string) : string := dq +:+ s +:+ dq.

(** The newline character that ends every line of a triple-quoted text. *)
Definition nl : string := String (ascii_of_nat 10) EmptyString.

(** A triple-quoted Python text whose opening quotes are followed by a
    backslash: every source line, each followed by a newline. *)
Fixpoint unlines (ls : list string) : string :=
  match ls with
  | [] => ""
  | l :: ls' => l +:+ nl +:+ unlines ls'
  end.

(** [is_prefix p s]: [s] starts with [p]. *)
Fixpoint is_prefix (p s : string) : bool :=
  match p, s with
  | EmptyString, _ => true
  | String a p', String b s' => if Ascii.eqb a b then is_prefix p' s' else false
  | String _ _, EmptyString => false
  end.

(** [mentions s t]: [t] occurs in [s] as a contiguous piece of text. *)
Fixpoint mentions (s t : string) : bool :=
  if is_prefix t s then true
  else match s with
       | EmptyString => false
       | String _ s' => mentions s' t
       end.

(** ** NodeSpec *)

(** The keyword arguments the module passes to [NodeSpec]. *)
Record NodeSpec := {
  id : string;
  name : string;
  description : string;
  node_type : string;
  client_facing : bool;
  input_keys : list string;
  output_keys : list string;
  system_prompt_lines : list string;
  tools : list string
}.

Definition system_prompt (n : NodeSpec) : string :=
  unlines (system_prompt_lines n).

Module Prompt.

(** Instruction text of [intake_node], source lines 19 to 42. *)
Definition intake : list string := [
  "You are an inbox management assistant. The user has provided rules for managing their emails.";
  "";
  "**STEP 1 — Respond to the user (text only, NO tool calls):**";
  "";
  "Read the user's rules from the input context. Present a clear summary of what you will do with their emails based on their rules.";
  "";
  "The following Gmail actions are available — map the user's rules to whichever apply:";
  "- **Trash** emails";
  "- **Mark as spam**";
  "- **Mark as important** / unmark important";
  "- **Mark as read** / mark as unread";
  "- **Star** / unstar emails";
  "- **Add/remove Gmail labels** (INBOX, UNREAD, IMPORTANT, STARRED, SPAM, CATEGORY_PERSONAL, CATEGORY_SOCIAL, CATEGORY_PROMOTIONS, CATEGORY_UPDATES, CATEGORY_FORUMS)";
  "";
  "Present the rules back to the user in plain language. Do NOT refuse rules — if the user asks for any of the above actions, confirm you will do it.";
  "";
  "Also confirm the batch size (max_emails). If max_emails is not provided, default to 100.";
  "";
  "Ask the user to confirm: " +:+ q "Does this look right? I'll proceed once you confirm.";
  "";
  "**STEP 2 — After the user confirms, call set_output:**";
  "";
  "- set_output(" +:+ q "rules" +:+ ", <the confirmed rules as a clear text description>)";
  "- set_output(" +:+ q "max_emails" +:+ ", <the confirmed max_emails as a string number, e.g. " +:+ q "100" +:+ ">)"
].

(** Instruction text of [fetch_emails_node], source lines 62 to 71. *)
Definition fetch_emails : list string := [
  "You are a data pipeline step. Your ONLY job is to fetch emails from Gmail by calling the bulk_fetch_emails tool.";
  "";
  "**Execute these exact steps:**";
  "";
  "1. Read the " +:+ q "max_emails" +:+ " value from the input context.";
  "2. Call bulk_fetch_emails with max_emails set to that value.";
  "3. The tool returns a JSON object with a " +:+ q "filename" +:+ " key (e.g. {" +:+ q "filename" +:+ ": " +:+ q "emails.jsonl" +:+ "}).";
  "4. Call set_output(" +:+ q "emails" +:+ ", <the filename value from the tool result>).";
  "";
  "Do NOT add commentary or explanation. Do NOT call any other tools. Execute the steps above exactly."
].

(** Instruction text of [classify_and_act_node], source lines 90 to 135. *)
Definition classify_and_act : list string := [
  "You are an inbox management assistant. Apply the user's rules to their emails and execute Gmail actions.";
  "";
  "**YOUR TOOLS:**";
  "- load_data(filename, limit, offset) — Read emails from a local file. This is how you access the emails.";
  "- append_data(filename, data) — Append a line to a file. Use this to record actions taken.";
  "- gmail_batch_modify_messages(message_ids, add_labels, remove_labels) — Modify Gmail labels in batch. ALWAYS prefer this.";
  "- gmail_modify_message(message_id, add_labels, remove_labels) — Modify a single message's labels.";
  "- gmail_trash_message(message_id) — Move a message to trash. No batch version; call per email.";
  "- set_output(key, value) — Set an output value. Call ONLY after all actions are executed.";
  "";
  "**CONTEXT:**";
  "- " +:+ q "rules" +:+ " = the user's rule to apply (e.g. " +:+ q "mark all as unread" +:+ ")";
  "- " +:+ q "emails" +:+ " = a filename (e.g. " +:+ q "emails.jsonl" +:+ ") containing the fetched emails as JSONL. Each line has: id, subject, from, to, date, snippet, labels.";
  "";
  "**STEP 1 — LOAD EMAILS (your first tool call MUST be load_data):**";
  "Call load_data(filename=<the " +:+ q "emails" +:+ " value from context>) to read the email data.";
  "- If the result is empty, call set_output(" +:+ q "actions_taken" +:+ ", " +:+ q "no emails to process" +:+ ") and stop.";
  "- If has_more=true, load more pages with load_data(filename=..., offset=...) until all emails are loaded.";
  "";
  "**STEP 2 — DETERMINE STRATEGY:**";
  "- **Blanket rule** (same action for ALL emails, e.g. " +:+ q "mark all as unread" +:+ "): Collect all message IDs, then execute ONE gmail_batch_modify_messages call.";
  "- **Classification rule** (different actions for different emails): Classify each email, group by action, execute batch operations per group.";
  "";
  "**STEP 3 — EXECUTE ACTIONS:**";
  "Call the appropriate Gmail tool(s) with the real message IDs from the loaded emails. Then record each action:";
  "- append_data(filename=" +:+ q "actions.jsonl" +:+ ", data=<JSON of {email_id, subject, from, action}>)";
  "";
  "**STEP 4 — FINISH:**";
  "After ALL actions are executed, call set_output(" +:+ q "actions_taken" +:+ ", " +:+ q "actions.jsonl" +:+ ").";
  "";
  "**GMAIL LABEL REFERENCE:**";
  "- MARK AS UNREAD — add_labels=[" +:+ q "UNREAD" +:+ "]";
  "- MARK AS READ — remove_labels=[" +:+ q "UNREAD" +:+ "]";
  "- MARK IMPORTANT — add_labels=[" +:+ q "IMPORTANT" +:+ "]";
  "- REMOVE IMPORTANT — remove_labels=[" +:+ q "IMPORTANT" +:+ "]";
  "- STAR — add_labels=[" +:+ q "STARRED" +:+ "]";
  "- UNSTAR — remove_labels=[" +:+ q "STARRED" +:+ "]";
  "- ARCHIVE — remove_labels=[" +:+ q "INBOX" +:+ "]";
  "- MARK AS SPAM — add_labels=[" +:+ q "SPAM" +:+ "], remove_labels=[" +:+ q "INBOX" +:+ "]";
  "- TRASH — use gmail_trash_message(message_id) per email";
  "";
  "**CRITICAL RULES:**";
  "- Your FIRST tool call MUST be load_data. Do NOT skip this.";
  "- You MUST call Gmail tools to execute real actions. Do NOT just report what should be done.";
  "- Do NOT call set_output until all Gmail actions are executed.";
  "- Pass ONLY the filename " +:+ q "actions.jsonl" +:+ " to set_output, NOT raw data."
].

(** Instruction text of [report_node], source lines 151 to 172. *)
Definition report : list string := [
  "You are an inbox management assistant. Your job is to generate a clear summary report of the actions taken on the user's emails.";
  "";
  "**LOADING ACTIONS:**";
  "The " +:+ q "actions_taken" +:+ " value from context is a filename (e.g. " +:+ q "actions.jsonl" +:+ "), NOT raw action data.";
  "- If it equals " +:+ q "[]" +:+ ", there are no actions — generate a report stating no emails were processed and call set_output.";
  "- Otherwise, call load_data(filename=<the actions_taken value>) to read the action records.";
  "- The file is in JSONL format: each line is one JSON object with: email_id, subject, from, action.";
  "- If load_data returns has_more=true, call it again with the next offset to get more records.";
  "- Read ALL records before generating the report.";
  "";
  "**GENERATE a summary report:**";
  "";
  "1. **Overview** — Total emails processed, breakdown by action type.";
  "";
  "2. **By Action** — Group emails by action taken. For each action group, list the emails with subject and sender.";
  "";
  "3. **No Action Taken** — Any emails that didn't match any rules (if applicable).";
  "";
  "Format the report as clean, readable text (not JSON).";
  "";
  "After generating the report, call:";
  "- set_output(" +:+ q "summary_report" +:+ ", <the formatted report text>)"
].

End Prompt.

(** Node 1: Intake (client-facing). *)
Definition intake_node : NodeSpec := {|
  id := "intake";
  name := "Intake";
  description :=
    "Receive and validate input parameters: rules and max_emails. " +:+
    "Present the interpreted rules back to the user for confirmation.";
  node_type := "event_loop";
  client_facing := true;
  input_keys := ["rules"; "max_emails"];
  output_keys := ["rules"; "max_emails"];
  system_prompt_lines := Prompt.intake;
  tools := []
|}.

(** Node 2: Fetch Emails. *)
Definition fetch_emails_node : NodeSpec := {|
  id := "fetch-emails";
  name := "Fetch Emails";
  description :=
    "Fetch emails from the Gmail inbox up to the configured batch limit. " +:+
    "Calls bulk_fetch_emails tool, which fetches via Gmail API and writes " +:+
    "compact JSONL to session data_dir.";
  node_type := "event_loop";
  client_facing := false;
  input_keys := ["rules"; "max_emails"];
  output_keys := ["emails"];
  system_prompt_lines := Prompt.fetch_emails;
  tools := ["bulk_fetch_emails"]
|}.

(** Node 3: Classify and Act. *)
Definition classify_and_act_node : NodeSpec := {|
  id := "classify-and-act";
  name := "Classify and Act";
  description :=
    "Apply the user's rules to each email and execute " +:+
    "the appropriate Gmail actions.";
  node_type := "event_loop";
  client_facing := false;
  input_keys := ["rules"; "emails"];
  output_keys := ["actions_taken"];
  system_prompt_lines := Prompt.classify_and_act;
  tools := ["gmail_trash_message"; "gmail_modify_message";
            "gmail_batch_modify_messages"; "load_data"; "append_data"]
|}.

(** Node 4: Report. *)
Definition report_node : NodeSpec := {|
  id := "report";
  name := "Report";
  description := "Generate a summary report of all actions taken on the emails.";
  node_type := "event_loop";
  client_facing := false;
  input_keys := ["actions_taken"];
  output_keys := ["summary_report"];
  system_prompt_lines := Prompt.report;
  tools := ["load_data"]
|}.

(** The module's [__all__], in declaration order: the order the pipeline
    runs the nodes in. *)
Definition all_nodes : list NodeSpec :=
  [intake_node; fetch_emails_node; classify_and_act_node; report_node].

(** Seed values supplied from outside when a run starts. *)
Definition seed_keys : list string := ["rules"; "max_emails"].

(** ** Data *)

(** A JSON value as the record files hold it: text, or a list of texts
    (an email's labels). *)
Inductive Json :=
| JString (s : string)
| JStrings (l : list string).

(** One line of a JSONL file: a JSON object, its fields in order. *)
Definition Line : Type := list (string * Json).

Definition fields (l : Line) : list string := map fst l.

Fixpoint field (k : string) (l : Line) : option Json :=
  match l with
  | [] => None
  | (k', v) :: l' => if String.eqb k' k then Some v else field k l'
  end.

Definition text_field (k : string) (l : Line) : string :=
  match field k l with
  | Some (JString s) => s
  | _ => ""
  end.

(** A message of the mailbox the Gmail tools act on. *)
Record Message := {
  msg_id : string;
  msg_subject : string;
  msg_from : string;
  msg_to : string;
  msg_date : string;
  msg_snippet : string;
  msg_labels : list string;
  msg_trashed : bool
}.

(** What tools can read and change: the record files of the session's data
    directory and the mailbox. *)
Record World := {
  files : gmap string (list Line);
  inbox : list Message
}.

(** Modelled from the spec: the failure taxonomy of section 7; the engine
    that raises them is not part of the module. *)
Inductive Failure :=
| MissingInputError (node key : string)
| IncompleteOutputError (node key : string)
| DuplicateOutputError (node key : string)
| ToolNotPermittedError (node tool : string)
| ToolExecutionError (tool : string).

(** Decimal text of a number, and back (Python's [str] and [int] on
    naturals). *)
Definition nat_to_string (n : nat) : string :=
  DecimalString.NilZero.string_of_uint (Nat.to_uint n).

Definition parse_nat (s : string) : option nat :=
  option_map Nat.of_uint (DecimalString.NilZero.uint_of_string s).

(** ** Paged Data Store *)

Module PagedDataStore.

(** The records of a file; a file that was never written has none. *)
Definition records (filename : string) (fs : gmap string (list Line)) : list Line :=
  default [] (fs !! filename).

(** Modelled from the spec: [append(filename, record)] of section 4.4,
    appends one record, creating the file if absent. *)
Definition append (filename : string) (record : Line)
    (fs : gmap string (list Line)) : gmap string (list Line) :=
  <[filename := records filename fs ++ [record]]> fs.

(** Modelled from the spec: [load(filename, limit, offset)] of section 4.4,
    up to [limit] records starting at [offset], and whether further records
    exist beyond the returned page. *)
Definition load (filename : string) (limit offset : nat)
    (fs : gmap string (list Line)) : list Line * bool :=
  let rs := records filename fs in
  (take limit (drop offset rs), bool_decide (offset + limit < length rs)).

End PagedDataStore.

(** ** Tools *)

(** Arguments of a tool invocation, one shape per tool signature the
    instruction texts give (source lines 67 and 93 to 97). *)
Inductive ToolArgs :=
| BulkFetchArgs (max_emails : string)
| LoadArgs (filename : string) (limit offset : option nat)
| AppendArgs (filename : string) (data : Line)
| BatchModifyArgs (message_ids add_labels remove_labels : list string)
| ModifyArgs (message_id : string) (add_labels remove_labels : list string)
| TrashArgs (message_id : string).

Inductive ToolResult :=
| Filename (filename : string)
| Page (records : list Line) (has_more : bool)
| Succeeded.

(** The tool identifiers the four whitelists name. *)
Definition bulk_fetch_emails : string := "bulk_fetch_emails".
Definition load_data : string := "load_data".
Definition append_data : string := "append_data".
Definition gmail_batch_modify_messages : string := "gmail_batch_modify_messages".
Definition gmail_modify_message : string := "gmail_modify_message".
Definition gmail_trash_message : string := "gmail_trash_message".

(** The identifier whose signature a shape of arguments belongs to. *)
Definition tool_of (args : ToolArgs) : string :=
  match args with
  | BulkFetchArgs _ => bulk_fetch_emails
  | LoadArgs _ _ _ => load_data
  | AppendArgs _ _ => append_data
  | BatchModifyArgs _ _ _ => gmail_batch_modify_messages
  | ModifyArgs _ _ _ => gmail_modify_message
  | TrashArgs _ => gmail_trash_message
  end.

Module Gmail.

(** The label vocabulary (source line 31). *)
Definition label_vocabulary : list string :=
  ["INBOX"; "UNREAD"; "IMPORTANT"; "STARRED"; "SPAM"; "CATEGORY_PERSONAL";
   "CATEGORY_SOCIAL"; "CATEGORY_PROMOTIONS"; "CATEGORY_UPDATES";
   "CATEGORY_FORUMS"].

Definition valid_labels (ls : list string) : bool :=
  forallb (fun l => bool_decide (l ∈ label_vocabulary)) ls.

Definition known (ids : list string) (box : list Message) : bool :=
  forallb (fun i => bool_decide (i ∈ map msg_id box)) ids.

Definition relabel (add remove : list string) (m : Message) : Message :=
  {| msg_id := msg_id m; msg_subject := msg_subject m; msg_from := msg_from m;
     msg_to := msg_to m; msg_date := msg_date m; msg_snippet := msg_snippet m;
     msg_labels := list_union (list_difference (msg_labels m) remove) add;
     msg_trashed := msg_trashed m |}.

Definition to_trash (m : Message) : Message :=
  {| msg_id := msg_id m; msg_subject := msg_subject m; msg_from := msg_from m;
     msg_to := msg_to m; msg_date := msg_date m; msg_snippet := msg_snippet m;
     msg_labels := msg_labels m;
     msg_trashed := true |}.

(** Modelled from the spec: [modify] and [batch_modify] of section 6, the
    external label operations; the tool validates the label names. *)
Definition modify (ids add remove : list string) (box : list Message)
    : option (list Message) :=
  if valid_labels add && valid_labels remove && known ids box
  then Some (map (fun m => if bool_decide (msg_id m ∈ ids)
                           then relabel add remove m else m) box)
  else None.

(** Modelled from the spec: [trash(entity_id)] of section 6, the external
    operation that moves one message to the trash. *)
Definition trash (i : string) (box : list Message) : option (list Message) :=
  if known [i] box
  then Some (map (fun m => if String.eqb (msg_id m) i then to_trash m else m) box)
  else None.

(** A message as a line of the fetched file (source line 102). *)
Definition email_line (m : Message) : Line :=
  [("id", JString (msg_id m)); ("subject", JString (msg_subject m));
   ("from", JString (msg_from m)); ("to", JString (msg_to m));
   ("date", JString (msg_date m)); ("snippet", JString (msg_snippet m));
   ("labels", JStrings (msg_labels m))].

(** Modelled from the spec: [bulk_fetch(max_count)] of section 6, writes a
    record file of email records and returns its handle.  Neither the spec
    nor the source fixes the handle or which messages are fetched: here the
    file is the one the instruction texts give as their example (source
    lines 68 and 102) and holds the first [max_count] messages of the inbox
    (up to the batch limit, source line 53).  The sample data are built
    with it; the procedures are specified on the file their input key
    names, whatever it is called and whatever it holds. *)
Definition bulk_fetch (max_count : nat) (w : World) : string * World :=
  ("emails.jsonl",
   {| files := <["emails.jsonl" := map email_line (take max_count (inbox w))]> (files w);
      inbox := inbox w |}).

Definition trashed_ids (box : list Message) : list string :=
  map msg_id (filter (fun m => msg_trashed m = true) box).

End Gmail.

(** ** Sessions *)

(** What a decision-maker session of one node has done so far. *)
Record SessionState := {
  world : World;
  trace : list (string * ToolArgs);    (* tool invocations, oldest first *)
  outputs : list (string * string);    (* set_output calls, oldest first *)
  sent : list string;                  (* messages to the client, oldest first *)
  replies : list bool                  (* confirmations still to come *)
}.

Inductive Outcome (A : Type) :=
| Returned (a : A)
| Failed (e : Failure)
| Exhausted.
Arguments Returned {A} a.
Arguments Failed {A} e.
Arguments Exhausted {A}.

Definition Act (A : Type) : Type := SessionState -> Outcome A * SessionState.

Definition ret {A} (a : A) : Act A := fun s => (Returned a, s).

Definition bind {A B} (m : Act A) (k : A -> Act B) : Act B :=
  fun s =>
    match m s with
    | (Returned a, s') => k a s'
    | (Failed e, s') => (Failed e, s')
    | (Exhausted, s') => (Exhausted, s')
    end.

Definition fail {A} (e : Failure) : Act A := fun s => (Failed e, s).

Definition exhausted {A} : Act A := fun s => (Exhausted, s).

Notation "'let*' x ':=' m 'in' k" := (bind m (fun x => k))
  (at level 10, x name, m at level 100, k at level 200).

(** Run an action on every element of a list, in order. *)
Fixpoint for_each {A} (l : list A) (f : A -> Act unit) : Act unit :=
  match l with
  | [] => ret tt
  | x :: l' => bind (f x) (fun _ => for_each l' f)
  end.

Section Engine.

(** The page size [load_data] uses when the caller names no limit. *)
Variable default_limit : nat.

(** Modelled from the spec: the external tool implementations the Tool
    Gateway delegates to (section 6); [None] is a failed execution, which
    leaves the world as it was. *)
Definition run_tool (tool : string) (args : ToolArgs) (w : World)
    : option (ToolResult * World) :=
  if negb (String.eqb tool (tool_of args)) then None else
  match args with
  | BulkFetchArgs max_emails =>
      match parse_nat max_emails with
      | Some n => let '(f, w') := Gmail.bulk_fetch n w in Some (Filename f, w')
      | None => None
      end
  | LoadArgs filename limit offset =>
      let '(rs, more) := PagedDataStore.load filename (default default_limit limit)
                           (default 0 offset) (files w) in
      Some (Page rs more, w)
  | AppendArgs filename data =>
      Some (Succeeded,
            {| files := PagedDataStore.append filename data (files w);
               inbox := inbox w |})
  | BatchModifyArgs ids add remove =>
      match Gmail.modify ids add remove (inbox w) with
      | Some box => Some (Succeeded, {| files := files w; inbox := box |})
      | None => None
      end
  | ModifyArgs i add remove =>
      match Gmail.modify [i] add remove (inbox w) with
      | Some box => Some (Succeeded, {| files := files w; inbox := box |})
      | None => None
      end
  | TrashArgs i =>
      match Gmail.trash i (inbox w) with
      | Some box => Some (Succeeded, {| files := files w; inbox := box |})
      | None => None
      end
  end.

(** ** Tool Gateway *)

Definition permitted (n : NodeSpec) (tool : string) : bool :=
  bool_decide (tool ∈ tools n).

(** Modelled from the spec: [invoke(node, tool_id, args)] of section 4.3,
    rejects a tool outside the node's whitelist, delegates a permitted call
    and propagates its failure; holds no state of its own. *)
Definition invoke (n : NodeSpec) (tool : string) (args : ToolArgs) (w : World)
    : (Failure + ToolResult) * World :=
  if permitted n tool then
    match run_tool tool args w with
    | Some (r, w') => (inr r, w')
    | None => (inl (ToolExecutionError tool), w)
    end
  else (inl (ToolNotPermittedError (id n) tool), w).


Definition logged (tool : string) (args : ToolArgs) (w : World) (s : SessionState)
    : SessionState :=
  {| world := w; trace := trace s ++ [(tool, args)]; outputs := outputs s;
     sent := sent s; replies := replies s |}.

(** A tool call of a session: every call goes through the gateway. *)
Definition call (n : NodeSpec) (tool : string) (args : ToolArgs) : Act ToolResult :=
  fun s =>
    match invoke n tool args (world s) with
    | (inr r, w') => (Returned r, logged tool args w' s)
    | (inl e, w') => (Failed e, logged tool args w' s)
    end.

(** Modelled from the spec: the completion action [set_output(key, value)]
    of section 6; the executor commits the recorded values when the node is
    done. *)
Definition set_output (key value : string) : Act unit :=
  fun s =>
    (Returned tt,
     {| world := world s; trace := trace s;
        outputs := outputs s ++ [(key, value)];
        sent := sent s; replies := replies s |}).

(** Modelled from the spec: [send_message(text)] of the Client Channel. *)
Definition send_message (text : string) : Act unit :=
  fun s =>
    (Returned tt,
     {| world := world s; trace := trace s; outputs := outputs s;
        sent := sent s ++ [text]; replies := replies s |}).

(** Modelled from the spec: [await_confirmation() -> bool] of the Client
    Channel; with no reply left the session waits until its budget ends. *)
Definition await_confirmation : Act bool :=
  fun s =>
    match replies s with
    | [] => (Exhausted, s)
    | b :: rest =>
        (Returned b,
         {| world := world s; trace := trace s; outputs := outputs s;
            sent := sent s; replies := rest |})
    end.

(** Further pages of a file, from [offset] on, while [has_more] is true
    (source lines 107 and 158); [budget] bounds the iterations of the
    session. *)
Fixpoint load_more (budget : nat) (n : NodeSpec) (filename : string) (offset : nat)
    : Act (list Line) :=
  match budget with
  | 0 => exhausted
  | S budget' =>
      let* r := call n load_data (LoadArgs filename None (Some offset)) in
      match r with
      | Page rs true =>
          let* rest := load_more budget' n filename (offset + length rs) in
          ret (rs ++ rest)
      | Page rs false => ret rs
      | _ => ret []
      end
  end.

(** ** The decision-maker *)

(** The actions of the Gmail label reference (source lines 121 to 129). *)
Inductive GmailAction :=
| MARK_AS_UNREAD | MARK_AS_READ | MARK_IMPORTANT | REMOVE_IMPORTANT
| STAR | UNSTAR | ARCHIVE | MARK_AS_SPAM | TRASH.

Definition gmail_actions : list GmailAction :=
  [MARK_AS_UNREAD; MARK_AS_READ; MARK_IMPORTANT; REMOVE_IMPORTANT;
   STAR; UNSTAR; ARCHIVE; MARK_AS_SPAM; TRASH].

Definition action_eqb (a b : GmailAction) : bool :=
  match a, b with
  | MARK_AS_UNREAD, MARK_AS_UNREAD | MARK_AS_READ, MARK_AS_READ
  | MARK_IMPORTANT, MARK_IMPORTANT | REMOVE_IMPORTANT, REMOVE_IMPORTANT
  | STAR, STAR | UNSTAR, UNSTAR | ARCHIVE, ARCHIVE
  | MARK_AS_SPAM, MARK_AS_SPAM | TRASH, TRASH => true
  | _, _ => false
  end.

Definition action_name (a : GmailAction) : string :=
  match a with
  | MARK_AS_UNREAD => "MARK AS UNREAD"
  | MARK_AS_READ => "MARK AS READ"
  | MARK_IMPORTANT => "MARK IMPORTANT"
  | REMOVE_IMPORTANT => "REMOVE IMPORTANT"
  | STAR => "STAR"
  | UNSTAR => "UNSTAR"
  | ARCHIVE => "ARCHIVE"
  | MARK_AS_SPAM => "MARK AS SPAM"
  | TRASH => "TRASH"
  end.

Definition add_labels (a : GmailAction) : list string :=
  match a with
  | MARK_AS_UNREAD => ["UNREAD"]
  | MARK_IMPORTANT => ["IMPORTANT"]
  | STAR => ["STARRED"]
  | MARK_AS_SPAM => ["SPAM"]
  | _ => []
  end.

Definition remove_labels (a : GmailAction) : list string :=
  match a with
  | MARK_AS_READ => ["UNREAD"]
  | REMOVE_IMPORTANT => ["IMPORTANT"]
  | UNSTAR => ["STARRED"]
  | ARCHIVE => ["INBOX"]
  | MARK_AS_SPAM => ["INBOX"]
  | _ => []
  end.

(** What the summary report is written from. *)
Inductive ReportContent :=
| NoEmailsProcessed
| Summary (records : list Line).

(** The judgement the instruction texts leave to the decision-maker: how it
    words the rules and the messages, which number it reads in the
    [max_emails] text, which action the rules give an email, and how it
    words a report. *)
Record DecisionMaker := {
  describe_rules : string -> string;
  read_number : string -> nat;
  present : string -> nat -> string;
  choose_action : string -> Line -> option GmailAction;
  write_report : ReportContent -> string
}.

Variable dm : DecisionMaker.

(** A value of the input context; a key the context lacks reads as empty
    text. *)
Definition input (ctx : gmap string string) (key : string) : string :=
  default "" (ctx !! key).

(** ** The procedures the instruction texts prescribe *)

(** The batch size Intake confirms: the number read in [max_emails], and
    100 when [max_emails] is not provided (source line 35). *)
Definition batch_size (max_emails : option string) : nat :=
  match max_emails with
  | Some text => read_number dm text
  | None => 100
  end.

(** Intake proceeds once the user confirms (source lines 37 and 39): an
    answer that is no confirmation leaves it waiting; [budget] bounds the
    answers it waits for. *)
Fixpoint await_confirmed (budget : nat) : Act unit :=
  match budget with
  | 0 => exhausted
  | S budget' =>
      let* confirmed := await_confirmation in
      if confirmed : bool then ret tt else await_confirmed budget'
  end.

(** STEP 1 of Intake (source lines 21 to 37): one response to the user,
    which presents the rules and the batch size and asks for confirmation;
    then the wait for it. *)
Definition intake_confirm (budget : nat) (summary : string) : Act unit :=
  let* _ := send_message summary in
  await_confirmed budget.

(** Intake (source lines 19 to 42): STEP 1, then STEP 2 sets both outputs,
    [max_emails] as a string number. *)
Definition intake_session (budget : nat) (ctx : gmap string string) : Act unit :=
  let rules := describe_rules dm (input ctx "rules") in
  let n := batch_size (ctx !! "max_emails") in
  let* _ := intake_confirm budget (present dm rules n) in
  let* _ := set_output "rules" rules in
  set_output "max_emails" (nat_to_string n).

(** Fetch Emails (source lines 66 to 69). *)
Definition fetch_emails_session (ctx : gmap string string) : Act unit :=
  let* r := call fetch_emails_node bulk_fetch_emails
              (BulkFetchArgs (input ctx "max_emails")) in
  match r with
  | Filename f => set_output "emails" f
  | _ => ret tt
  end.

(** The action record of STEP 3 (source line 115). *)
Definition action_record (email : Line) (a : GmailAction) : Line :=
  [("email_id", JString (text_field "id" email));
   ("subject", JString (text_field "subject" email));
   ("from", JString (text_field "from" email));
   ("action", JString (action_name a))].

(** The emails the rules give an action, each with its action. *)
Fixpoint classified (rules : string) (emails : list Line) : list (Line * GmailAction) :=
  match emails with
  | [] => []
  | e :: emails' =>
      match choose_action dm rules e with
      | Some a => (e, a) :: classified rules emails'
      | None => classified rules emails'
      end
  end.

(** The message ids of one action group. *)
Definition group (a : GmailAction) (acting : list (Line * GmailAction)) : list string :=
  map (fun ea => text_field "id" (fst ea))
      (filter (fun ea => action_eqb (snd ea) a = true) acting).

(** STEP 2 and STEP 3 for one group: one batched label call for the whole
    group (source lines 110 and 111), and for TRASH one call per email
    (source lines 97 and 129). *)
Definition act_on (a : GmailAction) (ids : list string) : Act unit :=
  match ids, a with
  | [], _ => ret tt
  | _, TRASH =>
      for_each ids (fun i =>
        let* _ := call classify_and_act_node gmail_trash_message (TrashArgs i) in
        ret tt)
  | _, _ =>
      let* _ := call classify_and_act_node gmail_batch_modify_messages
                  (BatchModifyArgs ids (add_labels a) (remove_labels a)) in
      ret tt
  end.

(** Classify and Act (source lines 104 to 118). *)
Definition classify_and_act_session (budget : nat) (ctx : gmap string string)
    : Act unit :=
  let filename := input ctx "emails" in
  let* first := call classify_and_act_node load_data (LoadArgs filename None None) in
  match first with
  | Page [] _ => set_output "actions_taken" "no emails to process"
  | Page rs more =>
      let* rest :=
        (if more then load_more budget classify_and_act_node filename (length rs)
         else ret []) in
      let acting := classified (input ctx "rules") (rs ++ rest) in
      let* _ := for_each gmail_actions (fun a => act_on a (group a acting)) in
      let* _ := for_each acting (fun ea =>
        let* _ := call classify_and_act_node append_data
                    (AppendArgs "actions.jsonl" (action_record (fst ea) (snd ea))) in
        ret tt) in
      set_output "actions_taken" "actions.jsonl"
  | _ => ret tt
  end.

(** Report (source lines 154 to 172). *)
Definition report_session (budget : nat) (ctx : gmap string string) : Act unit :=
  let actions_taken := input ctx "actions_taken" in
  if String.eqb actions_taken "[]" then
    set_output "summary_report" (write_report dm NoEmailsProcessed)
  else
    let* first := call report_node load_data (LoadArgs actions_taken None None) in
    match first with
    | Page rs more =>
        let* rest :=
          (if more then load_more budget report_node actions_taken (length rs)
           else ret []) in
        set_output "summary_report" (write_report dm (Summary (rs ++ rest)))
    | _ => ret tt
    end.

(** The session of each configured node. *)
Definition session_of (budget : nat) (n : NodeSpec) (ctx : gmap string string)
    : Act unit :=
  if String.eqb (id n) "intake" then intake_session budget ctx
  else if String.eqb (id n) "fetch-emails" then fetch_emails_session ctx
  else if String.eqb (id n) "classify-and-act" then classify_and_act_session budget ctx
  else if String.eqb (id n) "report" then report_session budget ctx
  else ret tt.

(** ** Pipeline Executor *)

(** Step 1 of section 4.1: the first declared input key the store lacks. *)
Fixpoint missing_input (keys : list string) (store : gmap string string)
    : option string :=
  match keys with
  | [] => None
  | k :: keys' =>
      match store !! k with
      | Some _ => missing_input keys' store
      | None => Some k
      end
  end.

Definition times_set (key : string) (outs : list (string * string)) : nat :=
  length (filter (fun kv => String.eqb (fst kv) key = true) outs).

(** Step 4 of section 4.1: every declared output key set exactly once. *)
Fixpoint output_failure (node : string) (keys : list string)
    (outs : list (string * string)) : option Failure :=
  match keys with
  | [] => None
  | k :: keys' =>
      match times_set k outs with
      | 0 => Some (IncompleteOutputError node k)
      | 1 => output_failure node keys' outs
      | _ => Some (DuplicateOutputError node k)
      end
  end.

(** The State Store after the recorded [set_output] calls. *)
Definition commit (outs : list (string * string)) (store : gmap string string)
    : gmap string string :=
  foldl (fun st kv => <[fst kv := snd kv]> st) store outs.

(** The values a node is given: those named by its [input_keys]. *)
Definition context (n : NodeSpec) (store : gmap string string) : gmap string string :=
  filter (fun kv => fst kv ∈ input_keys n) store.

(** What a run leaves behind. *)
Record RunState := {
  store : gmap string string;
  run_world : World;
  transcript : list string;
  pending : list bool
}.

(** Modelled from the spec: [run(pipeline, seed)] of section 4.1 for any
    decision-maker sessions; a failed node halts the run, and what it had
    set stays in the store (no rollback). *)
Fixpoint run (session : NodeSpec -> gmap string string -> Act unit)
    (pipeline : list NodeSpec) (r : RunState) : option Failure * RunState :=
  match pipeline with
  | [] => (None, r)
  | n :: pipeline' =>
      match missing_input (input_keys n) (store r) with
      | Some k => (Some (MissingInputError (id n) k), r)
      | None =>
          let '(o, s) :=
            session n (context n (store r))
              {| world := run_world r; trace := []; outputs := [];
                 sent := []; replies := pending r |} in
          let r' :=
            {| store := commit (outputs s) (store r); run_world := world s;
               transcript := transcript r ++ sent s; pending := replies s |} in
          match o with
          | Failed e => (Some e, r')
          | _ =>
              match output_failure (id n) (output_keys n) (outputs s) with
              | Some e => (Some e, r')
              | None => run session pipeline' r'
              end
          end
      end
  end.

End Engine.

(** ** Checks on a configured pipeline *)

(** Every input key of every node is among the keys [have] at the start or
    the output keys of an earlier node. *)
Fixpoint inputs_available (have : list string) (pipeline : list NodeSpec) : bool :=
  match pipeline with
  | [] => true
  | n :: pipeline' =>
      forallb (fun k => bool_decide (k ∈ have)) (input_keys n)
      && inputs_available (have ++ output_keys n) pipeline'
  end.

(** No output key of any node is among the keys [have] at the start or the
    output keys of an earlier node. *)
Fixpoint outputs_fresh (have : list string) (pipeline : list NodeSpec) : bool :=
  match pipeline with
  | [] => true
  | n :: pipeline' =>
      forallb (fun k => bool_decide (k ∉ have)) (output_keys n)
      && outputs_fresh (have ++ output_keys n) pipeline'
  end.

(** The ids of the nodes whose whitelist holds a tool. *)
Definition holders (tool : string) : list string :=
  map id (filter (fun n => tool ∈ tools n) all_nodes).

(** The client-facing nodes. *)
Definition client_facing_nodes : list NodeSpec :=
  filter (fun n => client_facing n = true) all_nodes.

(** The tools of the whitelists other than [load_data]: each writes a file
    or changes the mailbox. *)
Definition side_effecting_tools : list string :=
  [bulk_fetch_emails; gmail_trash_message; gmail_modify_message;
   gmail_batch_modify_messages; append_data].

(** The world after a node attempts a sequence of tool invocations, each
    through the gateway, whatever each one returns. *)
Definition attempt_all (default_limit : nat) (n : NodeSpec)
    (calls : list (string * ToolArgs)) (w : World) : World :=
  foldl (fun w c => snd (invoke default_limit n (fst c) (snd c) w)) w calls.

(** The message ids a sequence of invocations asks to trash. *)
Fixpoint trash_requests (calls : list (string * ToolArgs)) : list string :=
  match calls with
  | [] => []
  | (_, TrashArgs i) :: calls' => i :: trash_requests calls'
  | _ :: calls' => trash_requests calls'
  end.

(** The [set_output] calls a session added to those of [s]. *)
Definition new_outputs (s : SessionState) (r : Outcome unit * SessionState)
    : list (string * string) :=
  drop (length (outputs s)) (outputs (snd r)).

(** The tool invocations a session added to those of [s]. *)
Definition new_calls (s : SessionState) (r : Outcome unit * SessionState)
    : list (string * ToolArgs) :=
  drop (length (trace s)) (trace (snd r)).

(** The fields [append_data] was given, when the invocation is one. *)
Definition appended (c : string * ToolArgs) : option (string * list string) :=
  match c with
  | (_, AppendArgs filename data) => Some (filename, fields data)
  | _ => None
  end.

(** ** Sample data *)

Module Sample.

(** A decision-maker that trashes what comes from [ads@shop.example], stars
    what comes from [boss@work.example] and reads decimal numbers. *)
Definition dm : DecisionMaker := {|
  describe_rules := fun rules => rules;
  read_number := fun text => default 0 (parse_nat text);
  present := fun rules n => rules +:+ "; batch size " +:+ nat_to_string n;
  choose_action := fun _ email =>
    if String.eqb (text_field "from" email) "ads@shop.example" then Some TRASH
    else if String.eqb (text_field "from" email) "boss@work.example" then Some STAR
    else None;
  write_report := fun c =>
    match c with
    | NoEmailsProcessed => "No emails were processed."
    | Summary rs => nat_to_string (length rs) +:+ " emails processed."
    end
|}.

Definition message (i sender : string) : Message :=
  {| msg_id := i; msg_subject := "subject " +:+ i; msg_from := sender;
     msg_to := "me@home.example"; msg_date := "2024-01-01"; msg_snippet := "";
     msg_labels := ["INBOX"; "UNREAD"]; msg_trashed := false |}.

Definition mailbox : list Message :=
  [message "m1" "ads@shop.example"; message "m2" "boss@work.example";
   message "m3" "ads@shop.example"].

(** Before the fetch. *)
Definition world0 : World := {| files := ∅; inbox := mailbox |}.

(** After a fetch of the three messages. *)
Definition fetched : World := snd (Gmail.bulk_fetch 3 world0).

(** After a fetch that found nothing. *)
Definition fetched_nothing : World :=
  snd (Gmail.bulk_fetch 3 {| files := ∅; inbox := [] |}).

Definition start (w : World) (confirmations : list bool) : SessionState :=
  {| world := w; trace := []; outputs := []; sent := []; replies := confirmations |}.

Definition rules_only : gmap string string :=
  {[ "rules" := "trash ads" ]}.

Definition classify_context : gmap string string :=
  <["rules" := "trash ads"]> {[ "emails" := "emails.jsonl" ]}.

Definition page_size : nat := 2.

(** Two trash invocations, for the messages [m1] and [m3]. *)
Definition trash_calls : list (string * ToolArgs) :=
  [(gmail_trash_message, TrashArgs "m1"); (gmail_trash_message, TrashArgs "m3")].

(** Classify and Act after a fetch of the three messages, and after a fetch
    that found nothing. *)
Definition classified_run : Outcome unit * SessionState :=
  classify_and_act_session page_size dm 10 classify_context (start fetched []).

Definition empty_run : Outcome unit * SessionState :=
  classify_and_act_session page_size dm 10 classify_context
    (start fetched_nothing []).

(** A whole run: both seed keys given, the user confirms at once. *)
Definition whole_run : option Failure * RunState :=
  run (session_of page_size dm 10) all_nodes
    {| store := <["max_emails" := "3"]> rules_only; run_world := world0;
       transcript := []; pending := [true] |}.




End Sample.

(** ** Relating the states of a session *)

(** [keeps R m]: whatever [m] returns, the state it ends in is related by
    [R] to the state it started in. *)
Definition keeps {A} (R : SessionState -> SessionState -> Prop) (m : Act A) : Prop :=
  forall s, R s (snd (m s)).

(** The session read and wrote nothing outside its own records. *)
Definition same_world (s s' : SessionState) : Prop :=
  world s' = world s.

(** The session made no tool invocation. *)
Definition same_trace (s s' : SessionState) : Prop :=
  trace s' = trace s.

(** The session's records only grew, by invocations satisfying [P] and
    [set_output] calls satisfying [Q]. *)
Definition grew (P : string * ToolArgs -> Prop) (Q : string * string -> Prop)
    (s s' : SessionState) : Prop :=
  (exists cs, trace s' = trace s ++ cs /\ Forall P cs)
  /\ (exists os, outputs s' = outputs s ++ os /\ Forall Q os).

(** The field names of an action record (source lines 115 and 157). *)
Definition action_record_fields : list string :=
  ["email_id"; "subject"; "from"; "action"].

(** The invocations the Classify and Act procedure makes: loads of the
    emails file, trash calls, batched label calls, and appends of an action
    record to [actions.jsonl]. *)
Definition classify_call (ctx : gmap string string) (c : string * ToolArgs) : Prop :=
  (exists limit offset, c = (load_data, LoadArgs (input ctx "emails") limit offset))
  \/ (exists i, c = (gmail_trash_message, TrashArgs i))
  \/ (exists ids a,
        c = (gmail_batch_modify_messages,
             BatchModifyArgs ids (add_labels a) (remove_labels a)))
  \/ (exists email a,
        c = (append_data, AppendArgs "actions.jsonl" (action_record email a))).

(** The actions file only grew, by records with the action record fields. *)
Definition actions_appended (s s' : SessionState) : Prop :=
  exists new,
    PagedDataStore.records "actions.jsonl" (files (world s'))
    = PagedDataStore.records "actions.jsonl" (files (world s)) ++ new
    /\ Forall (fun l => fields l = action_record_fields) new.

(** The failures a tool invocation can end in. *)
Definition tool_failure (e : Failure) : Prop :=
  match e with
  | ToolNotPermittedError _ _ | ToolExecutionError _ => True
  | _ => False
  end.

(** [fails_by_tools m]: when [m] fails, a tool invocation failed. *)
Definition fails_by_tools {A} (m : Act A) : Prop :=
  forall s e, fst (m s) = Failed e -> tool_failure e.

(** ** Returning sessions *)

(** [runs m s Q]: started in [s], [m] returns, with a value and in a state
    that satisfy [Q]. *)
Definition runs {A} (m : Act A) (s : SessionState)
    (Q : A -> SessionState -> Prop) : Prop :=
  exists a s', m s = (Returned a, s') /\ Q a s'.

(** [fails_only P m]: when [m] fails, the failure satisfies [P]. *)
Definition fails_only {A} (P : Failure -> Prop) (m : Act A) : Prop :=
  forall s e, fst (m s) = Failed e -> P e.

(** The session made no [set_output] call. *)
Definition same_outputs (s s' : SessionState) : Prop :=
  outputs s' = outputs s.

(** [completes keys m]: when [m] returns it has set exactly [keys], each
    once and in that order, and when it does not return it has set
    nothing. *)
Definition completes (keys : list string) (m : Act unit) : Prop :=
  forall s,
    outputs (snd (m s)) = outputs s ++ new_outputs s (m s)
    /\ (fst (m s) = Returned tt -> map fst (new_outputs s (m s)) = keys)
    /\ (fst (m s) <> Returned tt -> new_outputs s (m s) = []).

(** What a tool returns when it succeeds, by the shape of its arguments. *)
Definition result_shape (args : ToolArgs) (res : ToolResult) : Prop :=
  match args with
  | BulkFetchArgs _ => exists f, res = Filename f
  | LoadArgs _ _ _ => exists rs more, res = Page rs more
  | _ => res = Succeeded
  end.

(** An invocation of [load_data] on the file [f]. *)
Definition is_load (f : string) (c : string * ToolArgs) : Prop :=
  exists limit offset, c = (load_data, LoadArgs f limit offset).

(** The Gmail invocations of STEP 3 for one action group (source lines 110,
    111 and 129). *)
Definition group_calls (a : GmailAction) (ids : list string)
    : list (string * ToolArgs) :=
  match ids, a with
  | [], _ => []
  | _, TRASH => map (fun i => (gmail_trash_message, TrashArgs i)) ids
  | _, _ =>
      [(gmail_batch_modify_messages,
        BatchModifyArgs ids (add_labels a) (remove_labels a))]
  end.

(** The Gmail invocations of STEP 3 for all groups, in the order of the
    label reference. *)
Definition gmail_calls (acting : list (Line * GmailAction))
    : list (string * ToolArgs) :=
  flat_map (fun a => group_calls a (group a acting)) gmail_actions.

(** The [append_data] invocations of STEP 3, one per acted-upon email
    (source line 115). *)
Definition record_calls (acting : list (Line * GmailAction))
    : list (string * ToolArgs) :=
  map (fun ea => (append_data,
                  AppendArgs "actions.jsonl" (action_record (fst ea) (snd ea))))
      acting.

(** The ids of the fetched emails are ids of messages of the mailbox. *)
Definition ids_known (emails : list Line) (box : list Message) : Prop :=
  forall e, e ∈ emails -> text_field "id" e ∈ map msg_id box.

(** Every output key of every node is an input key of a later node or one
    of the keys [final]. *)
Fixpoint outputs_consumed (final : list string) (pipeline : list NodeSpec) : bool :=
  match pipeline with
  | [] => true
  | n :: pipeline' =>
      forallb (fun k => bool_decide (k ∈ flat_map input_keys pipeline' ++ final))
              (output_keys n)
      && outputs_consumed final pipeline'
  end.

(** [did default_limit n cs s s']: between [s] and [s'] the session of node
    [n] made the invocations [cs], in that order, and nothing else: the
    world of [s'] is the world of [s] after those invocations. *)
Definition did (default_limit : nat) (n : NodeSpec)
    (cs : list (string * ToolArgs)) (s s' : SessionState) : Prop :=
  trace s' = trace s ++ cs
  /\ outputs s' = outputs s
  /\ sent s' = sent s
  /\ replies s' = replies s
  /\ world s' = attempt_all default_limit n cs (world s).

(** The message ids a sequence of invocations names. *)
Fixpoint targets (calls : list (string * ToolArgs)) : list string :=
  match calls with
  | [] => []
  | (_, TrashArgs i) :: calls' => i :: targets calls'
  | (_, ModifyArgs i _ _) :: calls' => i :: targets calls'
  | (_, BatchModifyArgs ids _ _) :: calls' => ids ++ targets calls'
  | _ :: calls' => targets calls'
  end.

(** The ids of the emails an action was chosen for. *)
Definition acted_ids (acting : list (Line * GmailAction)) : list string :=
  map (fun ea => text_field "id" (fst ea)) acting.

(** ** More sample data *)

Module Blanket.

(** A decision-maker for the rule "mark all as unread" (source line 101):
    every email gets the same label action. *)
Definition dm : DecisionMaker := {|
  describe_rules := fun rules => rules;
  read_number := fun text => default 0 (parse_nat text);
  present := fun rules n => rules +:+ "; batch size " +:+ nat_to_string n;
  choose_action := fun _ _ => Some MARK_AS_UNREAD;
  write_report := fun c =>
    match c with
    | NoEmailsProcessed => "No emails were processed."
    | Summary rs => nat_to_string (length rs) +:+ " emails processed."
    end
|}.

Definition run : Outcome unit * SessionState :=
  classify_and_act_session Sample.page_size dm 10 Sample.classify_context
    (Sample.start Sample.fetched []).

(** A run of the whole pipeline that starts with two refusals. *)
Definition initial : RunState :=
  {| store := <["max_emails" := "2"]> Sample.rules_only;
     run_world := Sample.world0; transcript := [];
     pending := [false; false; true] |}.

End Blanket.

(** * Properties of the configuration *)

Section Configuration.

Lemma inputs_available_split have p :
  inputs_available have p = true →
  ∀ before n after, p = before ++ n :: after →
  ∀ k, k ∈ input_keys n → k ∈ have ∨ ∃ m, m ∈ before ∧ k ∈ output_keys m.
Proof.
  revert have. induction p as [|n0 p IH]; intros have Hok before n after Hp k Hk.
  - by destruct before.
  - simpl in Hok. apply andb_true_iff in Hok as [Hhere Hrest].
    destruct before as [|b before]; simplify_eq/=.
    + left. rewrite forallb_forall in Hhere.
      apply list_elem_of_In, Hhere, bool_decide_eq_true in Hk. done.
    + destruct (IH _ Hrest before n after eq_refl k Hk) as [Hin|(m & Hm & Hkm)].
      * apply elem_of_app in Hin as [?|?]; [by left|].
        right. exists b. split; [left|done].
      * right. exists m. split; [by right|done].
Qed.

Lemma outputs_fresh_split have p :
  outputs_fresh have p = true →
  ∀ before n after, p = before ++ n :: after →
  ∀ k, k ∈ output_keys n → (k ∉ have) ∧ (∀ m, m ∈ before → k ∉ output_keys m).
Proof.
  revert have. induction p as [|n0 p IH]; intros have Hok before n after Hp k Hk.
  - by destruct before.
  - simpl in Hok. apply andb_true_iff in Hok as [Hhere Hrest].
    destruct before as [|b before]; simplify_eq/=.
    + rewrite forallb_forall in Hhere.
      apply list_elem_of_In, Hhere, bool_decide_eq_true in Hk.
      split; [done|]. intros m Hm. by apply elem_of_nil in Hm.
    + destruct (IH _ Hrest before n after eq_refl k Hk) as [Hnew Hearlier].
      split; [intros ?; apply Hnew, elem_of_app; by left|].
      intros m [->|Hm]%elem_of_cons; [|by apply Hearlier].
      intros ?. apply Hnew, elem_of_app. by right.
Qed.

(** C1. In the configured order Intake, Fetch Emails, Classify and Act,
    Report, every key in a node's [input_keys] is a seed key ([rules],
    [max_emails]) or an output key of a node earlier in the order. *)
Theorem input_keys_available_before_node before n after k :
  all_nodes = before ++ n :: after →
  k ∈ input_keys n →
  (k ∈ seed_keys ∨ ∃ m, m ∈ before ∧ k ∈ output_keys m)
  ∧ map name all_nodes = ["Intake"; "Fetch Emails"; "Classify and Act"; "Report"].
Proof.
  intros Hsplit Hk. split; [|reflexivity].
  by apply (inputs_available_split seed_keys all_nodes) with n after.
Qed.

Lemma input_keys_available_before_node_witness :
  "emails" ∈ seed_keys
  ∨ ∃ m, m ∈ [intake_node; fetch_emails_node] ∧ "emails" ∈ output_keys m.
Proof.
  apply (input_keys_available_before_node
           [intake_node; fetch_emails_node] classify_and_act_node [report_node]).
  - reflexivity.
  - apply (bool_decide_unpack _). vm_compute. exact I.
Defined.

(** C3. Each key is written by one [set_output] site at most: an output key
    of a node is no output key of an earlier node, no node lists an output
    key twice, and a node after Intake has no seed key among its output
    keys.  Intake alone sets the seed keys again: its output keys are its
    input keys, [rules] and [max_emails]. *)
Theorem output_keys_written_once before n after k :
  all_nodes = before ++ n :: after →
  k ∈ output_keys n →
  (∀ m, m ∈ before → k ∉ output_keys m)
  ∧ NoDup (output_keys n)
  ∧ (k ∈ seed_keys → n = intake_node)
  ∧ output_keys intake_node = seed_keys
  ∧ input_keys intake_node = seed_keys.
Proof.
  intros Hsplit Hk.
  assert (Hdup : NoDup (output_keys n)).
  { assert (Hall : Forall (fun m => NoDup (output_keys m)) all_nodes).
    { repeat constructor; apply (bool_decide_unpack _); vm_compute; exact I. }
    rewrite Forall_forall in Hall. apply Hall. rewrite Hsplit.
    apply elem_of_app. right. left. }
  destruct before as [|b before].
  - injection Hsplit as <- _.
    split; [intros m Hm; by apply elem_of_nil in Hm|].
    by repeat split.
  - injection Hsplit as <- Htail.
    assert (Hfresh : outputs_fresh (seed_keys ++ output_keys intake_node)
                       [fetch_emails_node; classify_and_act_node; report_node]
                     = true) by (vm_compute; reflexivity).
    destruct (outputs_fresh_split _ _ Hfresh before n after Htail k Hk)
      as [Hnew Hearlier].
    split.
    { intros m [->|Hm]%elem_of_cons; [|by apply Hearlier].
      intros ?. apply Hnew, elem_of_app. by right. }
    repeat split; [done|].
    intros Hseed. exfalso. apply Hnew, elem_of_app. by left.
Qed.

Lemma output_keys_written_once_witness :
  (∀ m, m ∈ [intake_node] → "emails" ∉ output_keys m)
  ∧ NoDup (output_keys fetch_emails_node)
  ∧ ("emails" ∈ seed_keys → fetch_emails_node = intake_node)
  ∧ output_keys intake_node = seed_keys
  ∧ input_keys intake_node = seed_keys.
Proof.
  apply (output_keys_written_once
           [intake_node] fetch_emails_node [classify_and_act_node; report_node]).
  - reflexivity.
  - apply (bool_decide_unpack _). vm_compute. exact I.
Defined.

(** C3 as stated fails: Intake's output keys are the seed keys, so its
    [set_output] calls write keys the store already holds. *)
Lemma intake_sets_seed_keys_again :
  ¬ (∀ before n after k,
       all_nodes = before ++ n :: after →
       k ∈ output_keys n →
       (k ∉ seed_keys) ∧ (∀ m, m ∈ before → k ∉ output_keys m)).
Proof.
  intros H.
  destruct (H [] intake_node
              [fetch_emails_node; classify_and_act_node; report_node]
              "rules" eq_refl) as [Hseed _].
  - apply (bool_decide_unpack _). vm_compute. exact I.
  - apply Hseed. apply (bool_decide_unpack _). vm_compute. exact I.
Qed.

(** C6. Intake is the one client-facing node; Fetch Emails, Classify and
    Act and Report are not client-facing. *)
Theorem intake_only_client_facing :
  client_facing_nodes = [intake_node]
  ∧ client_facing intake_node = true
  ∧ client_facing fetch_emails_node = false
  ∧ client_facing classify_and_act_node = false
  ∧ client_facing report_node = false.
Proof. repeat split. Qed.

Lemma holders_count tool :
  length (holders tool) =
    if bool_decide (tool = load_data) then 2
    else if bool_decide (tool ∈ side_effecting_tools) then 1 else 0.
Proof.
  destruct (decide (tool ∈ load_data :: side_effecting_tools)) as [Hin|Hout].
  - repeat (apply elem_of_cons in Hin as [->|Hin]); try (vm_compute; reflexivity).
    by apply elem_of_nil in Hin.
  - rewrite bool_decide_eq_false_2; [|intros ->; apply Hout; left].
    rewrite bool_decide_eq_false_2; [|intros ?; apply Hout; by right].
    unfold holders, all_nodes.
    rewrite !filter_cons, filter_nil.
    repeat case_decide; try reflexivity; exfalso; apply Hout;
      apply list_elem_of_In; simpl in *;
      repeat match goal with
             | H : _ ∈ _ |- _ => apply list_elem_of_In in H; simpl in H
             end; intuition.
Qed.

(** C10. Each side-effecting tool is in one whitelist: [bulk_fetch_emails]
    in that of Fetch Emails, the Gmail tools and [append_data] in that of
    Classify and Act.  The one tool two nodes share is [load_data]
    (Classify and Act, Report); Intake has no tool. *)
Theorem tools_partitioned_by_node :
  holders bulk_fetch_emails = ["fetch-emails"]
  ∧ holders gmail_trash_message = ["classify-and-act"]
  ∧ holders gmail_modify_message = ["classify-and-act"]
  ∧ holders gmail_batch_modify_messages = ["classify-and-act"]
  ∧ holders append_data = ["classify-and-act"]
  ∧ holders load_data = ["classify-and-act"; "report"]
  ∧ tools intake_node = []
  ∧ ∀ tool,
      length (holders tool) =
        if bool_decide (tool = load_data) then 2
        else if bool_decide (tool ∈ side_effecting_tools) then 1 else 0.
Proof. repeat split. apply holders_count. Qed.

End Configuration.

(** * Properties of sessions *)

Section Sessions.

Lemma keeps_ret {A} (R : relation SessionState) `{!Reflexive R} (a : A) :
  keeps R (ret a).
Proof. intros s. simpl. reflexivity. Qed.

Lemma keeps_fail {A} (R : relation SessionState) `{!Reflexive R} e :
  keeps R (@fail A e).
Proof. intros s. simpl. reflexivity. Qed.

Lemma keeps_exhausted {A} (R : relation SessionState) `{!Reflexive R} :
  keeps R (@exhausted A).
Proof. intros s. simpl. reflexivity. Qed.

Lemma bind_eq {A B} (m : Act A) (k : A -> Act B) s :
  bind m k s =
    match m s with
    | (Returned a, s') => k a s'
    | (Failed e, s') => (Failed e, s')
    | (Exhausted, s') => (Exhausted, s')
    end.
Proof. reflexivity. Qed.

Lemma keeps_bind {A B} (R : relation SessionState) `{!Transitive R}
    (m : Act A) (k : A -> Act B) :
  keeps R m → (∀ a, keeps R (k a)) → keeps R (bind m k).
Proof.
  intros Hm Hk s. unfold bind. specialize (Hm s).
  destruct (m s) as [[a| |] s1]; simpl in *; [|done|done].
  transitivity s1; [done|apply Hk].
Qed.

Lemma keeps_for_each {A} (R : relation SessionState) `{!PreOrder R}
    (l : list A) (f : A -> Act unit) :
  (∀ x, keeps R (f x)) → keeps R (for_each l f).
Proof.
  intros Hf. induction l as [|x l IH]; simpl.
  - apply keeps_ret, _.
  - apply keeps_bind; [apply _|apply Hf|done].
Qed.

Global Instance same_world_preorder : PreOrder same_world.
Proof. split; unfold same_world; [done|congruence]. Qed.

Global Instance same_trace_preorder : PreOrder same_trace.
Proof. split; unfold same_trace; [done|congruence]. Qed.

Global Instance grew_preorder P Q : PreOrder (grew P Q).
Proof.
  split.
  - intros s. split; exists []; by rewrite app_nil_r.
  - intros s1 s2 s3 [(c1 & Hc1 & HP1) (o1 & Ho1 & HQ1)] [(c2 & Hc2 & HP2) (o2 & Ho2 & HQ2)].
    split.
    + exists (c1 ++ c2). split; [by rewrite Hc2, Hc1, app_assoc|by apply Forall_app].
    + exists (o1 ++ o2). split; [by rewrite Ho2, Ho1, app_assoc|by apply Forall_app].
Qed.

Lemma grew_new P Q s r :
  grew P Q s (snd r) →
  trace (snd r) = trace s ++ new_calls s r
  ∧ Forall P (new_calls s r)
  ∧ outputs (snd r) = outputs s ++ new_outputs s r
  ∧ Forall Q (new_outputs s r).
Proof.
  intros [(cs & Hc & HP) (os & Ho & HQ)]. unfold new_calls, new_outputs.
  rewrite Hc, Ho, !drop_app_length. done.
Qed.

Variable default_limit : nat.
Variable dm : DecisionMaker.

(** *** The session operations *)

Lemma set_output_same_world k v : keeps same_world (set_output k v).
Proof. by intros s. Qed.

Lemma send_message_same_world text : keeps same_world (send_message text).
Proof. by intros s. Qed.

Lemma await_confirmation_same_world : keeps same_world await_confirmation.
Proof. intros s. unfold await_confirmation. by destruct (replies s). Qed.

Lemma set_output_same_trace k v : keeps same_trace (set_output k v).
Proof. by intros s. Qed.

Lemma send_message_same_trace text : keeps same_trace (send_message text).
Proof. by intros s. Qed.

Lemma await_confirmation_same_trace : keeps same_trace await_confirmation.
Proof. intros s. unfold await_confirmation. by destruct (replies s). Qed.

Lemma set_output_grew P Q k v : Q (k, v) → keeps (grew P Q) (set_output k v).
Proof.
  intros HQ s. split; simpl.
  - exists []. by rewrite app_nil_r.
  - exists [(k, v)]. split; [done|by constructor].
Qed.

Lemma send_message_grew P Q text : keeps (grew P Q) (send_message text).
Proof. intros s. simpl. split; exists []; by rewrite app_nil_r. Qed.

Lemma await_confirmation_grew P Q : keeps (grew P Q) await_confirmation.
Proof.
  intros s. unfold await_confirmation.
  destruct (replies s); simpl; split; exists []; by rewrite app_nil_r.
Qed.

Lemma call_same_world n tool args :
  (∀ w, snd (invoke default_limit n tool args w) = w) →
  keeps same_world (call default_limit n tool args).
Proof.
  intros Hw s. unfold call. specialize (Hw (world s)).
  by destruct (invoke default_limit n tool args (world s)) as [[e|r] w'].
Qed.

Lemma call_grew P Q n tool args :
  P (tool, args) → keeps (grew P Q) (call default_limit n tool args).
Proof.
  intros HP s. unfold call.
  destruct (invoke default_limit n tool args (world s)) as [[e|r] w']; simpl;
    (split; [exists [(tool, args)]; split; [done|by constructor]
            |exists []; by rewrite app_nil_r]).
Qed.

(** *** The gateway *)

Lemma invoke_not_permitted n tool args w :
  permitted n tool = false →
  invoke default_limit n tool args w = (inl (ToolNotPermittedError (id n) tool), w).
Proof. intros H. unfold invoke. by rewrite H. Qed.

Lemma run_tool_load_data args w r w' :
  run_tool default_limit load_data args w = Some (r, w') → w' = w.
Proof.
  unfold run_tool. destruct args; simpl; try discriminate.
  unfold PagedDataStore.load. by intros [= _ ->].
Qed.

Lemma invoke_load_data n args w :
  snd (invoke default_limit n load_data args w) = w.
Proof.
  unfold invoke. destruct (permitted n load_data); [|done].
  destruct (run_tool default_limit load_data args w) as [[r w']|] eqn:Hrun; [|done].
  simpl. by apply run_tool_load_data in Hrun.
Qed.

Lemma attempt_all_unchanged n calls w :
  (∀ tool args w, snd (invoke default_limit n tool args w) = w) →
  attempt_all default_limit n calls w = w.
Proof.
  intros Hw. unfold attempt_all. revert w.
  induction calls as [|[tool args] calls IH]; intros w; simpl; [done|].
  by rewrite Hw.
Qed.

(** *** Intake *)

Lemma await_confirmed_keeps (R : relation SessionState) `{!PreOrder R} :
  keeps R await_confirmation →
  ∀ budget, keeps R (await_confirmed budget).
Proof.
  intros Hawait budget.
  induction budget as [|budget IH]; simpl.
  - apply keeps_exhausted, _.
  - apply keeps_bind; [apply _|apply Hawait|intros [|]]; [|done].
    apply keeps_ret, _.
Qed.

Lemma intake_confirm_keeps (R : relation SessionState) `{!PreOrder R} :
  (∀ text, keeps R (send_message text)) →
  keeps R await_confirmation →
  ∀ budget summary, keeps R (intake_confirm budget summary).
Proof.
  intros Hsend Hawait budget summary. unfold intake_confirm.
  apply keeps_bind; [apply _|apply Hsend|intros _].
  by apply await_confirmed_keeps.
Qed.

Lemma intake_session_keeps (R : relation SessionState) `{!PreOrder R} ctx :
  (∀ text, keeps R (send_message text)) →
  keeps R await_confirmation →
  keeps R (set_output "rules" (describe_rules dm (input ctx "rules"))) →
  keeps R (set_output "max_emails"
             (nat_to_string (batch_size dm (ctx !! "max_emails")))) →
  ∀ budget, keeps R (intake_session dm budget ctx).
Proof.
  intros Hsend Hawait Hrules Hmax budget. unfold intake_session.
  apply keeps_bind; [apply _|by apply intake_confirm_keeps|intros _].
  by apply keeps_bind; [apply _| |intros _].
Qed.

Lemma invoke_intake tool args w :
  invoke default_limit intake_node tool args w
  = (inl (ToolNotPermittedError "intake" tool), w).
Proof. by apply invoke_not_permitted. Qed.

(** C9. Intake's whitelist is empty, so the gateway rejects every tool
    invocation Intake attempts with [ToolNotPermittedError] and runs
    nothing: files and mailbox stay as they were, after one attempt and
    after any number.  The session the instruction text prescribes makes no
    invocation; what it does is send messages and set its declared output
    keys. *)
Theorem intake_cannot_use_tools :
  tools intake_node = []
  ∧ (∀ tool args w,
       invoke default_limit intake_node tool args w
       = (inl (ToolNotPermittedError "intake" tool), w))
  ∧ (∀ calls w, attempt_all default_limit intake_node calls w = w)
  ∧ (∀ budget ctx s,
       let r := intake_session dm budget ctx s in
       world (snd r) = world s
       ∧ trace (snd r) = trace s
       ∧ outputs (snd r) = outputs s ++ new_outputs s r
       ∧ Forall (fun kv => fst kv ∈ output_keys intake_node) (new_outputs s r)).
Proof.
  split; [done|]. split; [apply invoke_intake|]. split.
  { intros calls w. apply attempt_all_unchanged. intros tool args w'.
    by rewrite invoke_intake. }
  intros budget ctx s r.
  assert (Hworld : same_world s (snd r)).
  { apply intake_session_keeps; [apply _|apply send_message_same_world
      |apply await_confirmation_same_world|apply set_output_same_world..]. }
  assert (Htrace : same_trace s (snd r)).
  { apply intake_session_keeps; [apply _|apply send_message_same_trace
      |apply await_confirmation_same_trace|apply set_output_same_trace..]. }
  assert (Hgrew : grew (fun _ => False)
                    (fun kv => fst kv ∈ output_keys intake_node) s (snd r)).
  { apply intake_session_keeps; [apply _|apply send_message_grew
      |apply await_confirmation_grew|..];
      apply set_output_grew; apply (bool_decide_unpack _); vm_compute; exact I. }
  apply grew_new in Hgrew as (_ & _ & Hout & Hkeys).
  done.
Qed.

(** *** Paging *)

Lemma load_more_keeps (R : relation SessionState) `{!PreOrder R} n filename :
  (∀ limit offset,
     keeps R (call default_limit n load_data (LoadArgs filename limit offset))) →
  ∀ budget offset, keeps R (load_more default_limit budget n filename offset).
Proof.
  intros Hcall budget. induction budget as [|budget IH]; intros offset; simpl.
  - apply keeps_exhausted, _.
  - apply keeps_bind; [apply _|apply Hcall|intros [f|rs [|]|]];
      try (apply keeps_ret, _).
    apply keeps_bind; [apply _|apply IH|intros rest]. apply keeps_ret, _.
Qed.

(** *** Report *)

Lemma permitted_report tool :
  permitted report_node tool = String.eqb tool load_data.
Proof.
  unfold permitted. simpl.
  destruct (String.eqb_spec tool load_data) as [->|Hne].
  - apply bool_decide_eq_true_2. left.
  - apply bool_decide_eq_false_2. intros [->|Hin%elem_of_nil]%elem_of_cons; done.
Qed.

Lemma invoke_report tool args w :
  snd (invoke default_limit report_node tool args w) = w.
Proof.
  destruct (permitted report_node tool) eqn:Hp.
  - rewrite permitted_report in Hp. apply String.eqb_eq in Hp as ->.
    apply invoke_load_data.
  - by rewrite invoke_not_permitted.
Qed.

Lemma report_session_keeps (R : relation SessionState) `{!PreOrder R} ctx :
  (∀ limit offset,
     keeps R (call default_limit report_node load_data
                (LoadArgs (input ctx "actions_taken") limit offset))) →
  (∀ v, keeps R (set_output "summary_report" v)) →
  ∀ budget, keeps R (report_session default_limit dm budget ctx).
Proof.
  intros Hcall Hset budget. unfold report_session.
  destruct (String.eqb _ _); [apply Hset|].
  apply keeps_bind; [apply _|apply Hcall|intros [f|rs more|]];
    try (apply keeps_ret, _).
  apply keeps_bind; [apply _| |intros rest; apply Hset].
  destruct more; [by apply load_more_keeps|apply keeps_ret, _].
Qed.

Lemma commit_frame outs (st : gmap string string) k :
  Forall (fun kv => fst kv = k) outs →
  delete k (commit outs st) = delete k st.
Proof.
  unfold commit. intros Hall. revert st.
  induction Hall as [|[k' v] outs Hk _ IH]; intros st; simpl; [done|].
  simpl in Hk. subst k'. by rewrite IH, delete_insert_eq.
Qed.

(** C5. Report declares one input key, [actions_taken], one output key,
    [summary_report], and one tool, [load_data].  The gateway permits it
    [load_data] alone, and whatever Report invokes, once or many times,
    files and mailbox stay as they were.  The session the instruction text
    prescribes reads only the file [actions_taken] names, sets no key but
    [summary_report], and so leaves every other key of the State Store as
    it was. *)
Theorem report_only_reads_the_actions_file :
  input_keys report_node = ["actions_taken"]
  ∧ output_keys report_node = ["summary_report"]
  ∧ tools report_node = [load_data]
  ∧ (∀ tool, permitted report_node tool = String.eqb tool load_data)
  ∧ (∀ tool args w, snd (invoke default_limit report_node tool args w) = w)
  ∧ (∀ calls w, attempt_all default_limit report_node calls w = w)
  ∧ (∀ budget ctx s,
       let r := report_session default_limit dm budget ctx s in
       world (snd r) = world s
       ∧ trace (snd r) = trace s ++ new_calls s r
       ∧ Forall (fun c => ∃ limit offset,
                   c = (load_data, LoadArgs (input ctx "actions_taken") limit offset))
           (new_calls s r)
       ∧ outputs (snd r) = outputs s ++ new_outputs s r
       ∧ Forall (fun kv => fst kv = "summary_report") (new_outputs s r)
       ∧ ∀ st : gmap string string,
           delete "summary_report" (commit (new_outputs s r) st)
           = delete "summary_report" st).
Proof.
  do 3 (split; [done|]). split; [apply permitted_report|].
  split; [apply invoke_report|].
  split; [intros; apply attempt_all_unchanged, invoke_report|].
  intros budget ctx s r.
  assert (Hworld : same_world s (snd r)).
  { apply report_session_keeps; [apply _| |intros; apply set_output_same_world].
    intros. apply call_same_world, invoke_report. }
  assert (Hgrew : grew (fun c => ∃ limit offset,
                          c = (load_data, LoadArgs (input ctx "actions_taken") limit offset))
                    (fun kv => fst kv = "summary_report") s (snd r)).
  { apply report_session_keeps; [apply _| |intros; by apply set_output_grew].
    intros. apply call_grew. eauto. }
  apply grew_new in Hgrew as (Htrace & Hcalls & Hout & Hkeys).
  repeat split; try done.
  intros st. by apply commit_frame.
Qed.

(** *** Trash *)

Lemma trashed_ids_relabel (ids : list string) add remove box :
  Gmail.trashed_ids
    (map (fun m => if bool_decide (msg_id m ∈ ids)
                   then Gmail.relabel add remove m else m) box)
  = Gmail.trashed_ids box.
Proof.
  unfold Gmail.trashed_ids. induction box as [|m box IH]; simpl; [done|].
  rewrite !filter_cons.
  destruct (bool_decide (msg_id m ∈ ids)); simpl;
    destruct (decide (msg_trashed m = true)); simpl; by rewrite IH.
Qed.

Lemma trashed_ids_trash i box j :
  j ∈ Gmail.trashed_ids
        (map (fun m => if String.eqb (msg_id m) i then Gmail.to_trash m else m) box) →
  j = i ∨ j ∈ Gmail.trashed_ids box.
Proof.
  unfold Gmail.trashed_ids. induction box as [|m box IH]; simpl; [by right|].
  rewrite !filter_cons.
  destruct (String.eqb_spec (msg_id m) i) as [Hi|Hi]; simpl.
  - intros [->|Hin]%elem_of_cons; [by left|].
    destruct (IH Hin) as [?|?]; [by left|right].
    destruct (decide (msg_trashed m = true)); simpl; [by right|done].
  - destruct (decide (msg_trashed m = true)); simpl.
    + intros [->|Hin]%elem_of_cons; [right; left|].
      destruct (IH Hin) as [?|?]; [by left|right; by right].
    + done.
Qed.

Lemma run_tool_trashed tool args w r w' j :
  run_tool default_limit tool args w = Some (r, w') →
  j ∈ Gmail.trashed_ids (inbox w') →
  j ∈ Gmail.trashed_ids (inbox w)
  ∨ (tool = gmail_trash_message ∧ args = TrashArgs j).
Proof.
  unfold run_tool.
  destruct (String.eqb_spec tool (tool_of args)) as [->|]; simpl; [|done].
  destruct args as [m|f l o|f d|ids add remove|i add remove|i]; simpl.
  - destruct (parse_nat m); [|done]. intros [= _ <-]. by left.
  - unfold PagedDataStore.load. intros [= _ <-]. by left.
  - intros [= _ <-]. by left.
  - unfold Gmail.modify. destruct (_ && _); [|done].
    intros [= _ <-]. simpl. rewrite trashed_ids_relabel. by left.
  - unfold Gmail.modify. destruct (_ && _); [|done].
    intros [= _ <-]. simpl. rewrite trashed_ids_relabel. by left.
  - unfold Gmail.trash. destruct (Gmail.known _ _); [|done].
    intros [= _ <-]. simpl. intros [->|?]%trashed_ids_trash; [by right|by left].
Qed.

Lemma invoke_trashed n tool args w j :
  j ∈ Gmail.trashed_ids (inbox (snd (invoke default_limit n tool args w))) →
  j ∈ Gmail.trashed_ids (inbox w)
  ∨ (tool = gmail_trash_message ∧ args = TrashArgs j).
Proof.
  unfold invoke. destruct (permitted n tool); [|by left].
  destruct (run_tool default_limit tool args w) as [[r w']|] eqn:Hrun; [|by left].
  simpl. by apply run_tool_trashed with r.
Qed.

Lemma attempt_all_trashed n calls w j :
  j ∈ Gmail.trashed_ids (inbox (attempt_all default_limit n calls w)) →
  j ∈ Gmail.trashed_ids (inbox w) ∨ j ∈ trash_requests calls.
Proof.
  unfold attempt_all. revert w.
  induction calls as [|[tool args] calls IH]; intros w; simpl; [by left|].
  intros [Hin|Hin]%IH.
  - apply invoke_trashed in Hin as [?|[_ ->]]; [by left|right; left].
  - right. destruct args; try done. by right.
Qed.

Lemma trash_requests_length calls :
  (length (trash_requests calls) ≤ length calls)%nat.
Proof.
  induction calls as [|[tool args] calls IH]; simpl; [done|].
  destruct args; simpl; lia.
Qed.

Lemma new_calls_app s r cs :
  trace (snd r) = trace s ++ cs → new_calls s r = cs.
Proof. intros H. unfold new_calls. by rewrite H, drop_app_length. Qed.

Lemma trash_each_calls ids s :
  let f := fun i =>
    bind (call default_limit classify_and_act_node gmail_trash_message (TrashArgs i))
         (fun _ => ret tt) in
  fst (for_each ids f s) = Returned tt →
  trace (snd (for_each ids f s))
  = trace s ++ map (fun i => (gmail_trash_message, TrashArgs i)) ids.
Proof.
  intros f. revert s. induction ids as [|i ids IH]; intros s; simpl.
  - by rewrite app_nil_r.
  - assert (Hstep : f i s =
      match invoke default_limit classify_and_act_node gmail_trash_message
              (TrashArgs i) (world s) with
      | (inr _, w') => (Returned tt, logged gmail_trash_message (TrashArgs i) w' s)
      | (inl e, w') => (Failed e, logged gmail_trash_message (TrashArgs i) w' s)
      end).
    { unfold f, bind, call. by destruct (invoke _ _ _ _ _) as [[e|r] w']. }
    rewrite !bind_eq, Hstep.
    destruct (invoke default_limit classify_and_act_node gmail_trash_message
                (TrashArgs i) (world s)) as [[e|r] w']; [done|].
    intros Hok. rewrite (IH _ Hok). simpl. by rewrite <- app_assoc.
Qed.

(** C7. Trash has no batch form.  An invocation by Classify and Act puts a
    message in the trash only if it is [gmail_trash_message] on that one
    message id, so whatever sequence of invocations trashes [n] distinct
    messages holds at least [n] trash invocations.  The prescribed step
    makes one [gmail_trash_message] invocation per email of a TRASH group,
    and for a label action one [gmail_batch_modify_messages] invocation
    for the whole group. *)
Theorem trash_takes_one_call_per_email calls w ids :
  NoDup ids →
  (∀ i, i ∈ ids → i ∉ Gmail.trashed_ids (inbox w)) →
  (∀ i, i ∈ ids →
     i ∈ Gmail.trashed_ids
           (inbox (attempt_all default_limit classify_and_act_node calls w))) →
  (length ids ≤ length (trash_requests calls))%nat
  ∧ (length (trash_requests calls) ≤ length calls)%nat
  ∧ (∀ tool args w0 j,
       j ∈ Gmail.trashed_ids
             (inbox (snd (invoke default_limit classify_and_act_node tool args w0))) →
       j ∈ Gmail.trashed_ids (inbox w0)
       ∨ (tool = gmail_trash_message ∧ args = TrashArgs j))
  ∧ (∀ s, fst (act_on default_limit TRASH ids s) = Returned tt →
       new_calls s (act_on default_limit TRASH ids s)
       = map (fun i => (gmail_trash_message, TrashArgs i)) ids)
  ∧ (∀ a s, a ≠ TRASH → ids ≠ [] →
       new_calls s (act_on default_limit a ids s)
       = [(gmail_batch_modify_messages,
           BatchModifyArgs ids (add_labels a) (remove_labels a))]).
Proof.
  intros Hdup Hbefore Hafter.
  split.
  { apply submseteq_length, NoDup_submseteq; [done|].
    intros i Hi. destruct (attempt_all_trashed _ _ _ _ (Hafter i Hi)); [|done].
    by destruct (Hbefore i Hi). }
  split; [apply trash_requests_length|].
  split; [intros tool args w0 j Hj; by apply invoke_trashed in Hj|].
  split.
  - intros s Hok. apply new_calls_app.
    destruct ids as [|i ids']; [simpl; by rewrite app_nil_r|].
    by apply trash_each_calls.
  - intros a s Ha Hids. apply new_calls_app.
    destruct ids as [|i ids']; [done|].
    unfold act_on.
    destruct a; try done; unfold bind, call;
      destruct (invoke _ _ _ _ _) as [[e|r] w']; done.
Qed.

(** *** Classify and Act *)

Global Instance actions_appended_preorder : PreOrder actions_appended.
Proof.
  split.
  - intros s. exists []. by rewrite app_nil_r.
  - intros s1 s2 s3 (n1 & H1 & F1) (n2 & H2 & F2).
    exists (n1 ++ n2). split; [by rewrite H2, H1, app_assoc|by apply Forall_app].
Qed.

Lemma set_output_actions_appended k v : keeps actions_appended (set_output k v).
Proof. intros s. simpl. exists []. by rewrite app_nil_r. Qed.

Lemma act_on_keeps (R : relation SessionState) `{!PreOrder R} ctx a ids :
  (∀ c, classify_call ctx c →
        keeps R (call default_limit classify_and_act_node (fst c) (snd c))) →
  keeps R (act_on default_limit a ids).
Proof.
  intros Hcall. unfold act_on.
  assert (Hbatch : keeps R
    (bind (call default_limit classify_and_act_node gmail_batch_modify_messages
             (BatchModifyArgs ids (add_labels a) (remove_labels a)))
          (fun _ => ret tt))).
  { apply keeps_bind; [apply _| |intros; apply keeps_ret, _].
    apply (Hcall (_, _)). right. right. left. eauto. }
  destruct ids as [|i ids']; [apply keeps_ret, _|].
  destruct a; try exact Hbatch.
  apply keeps_for_each; [apply _|intros j].
  apply keeps_bind; [apply _| |intros; apply keeps_ret, _].
  apply (Hcall (_, _)). right. left. eauto.
Qed.

Lemma classify_and_act_session_keeps (R : relation SessionState) `{!PreOrder R} ctx :
  (∀ c, classify_call ctx c →
        keeps R (call default_limit classify_and_act_node (fst c) (snd c))) →
  (∀ v, keeps R (set_output "actions_taken" v)) →
  ∀ budget, keeps R (classify_and_act_session default_limit dm budget ctx).
Proof.
  intros Hcall Hset budget. unfold classify_and_act_session.
  assert (Hload : ∀ limit offset, keeps R
    (call default_limit classify_and_act_node load_data
       (LoadArgs (input ctx "emails") limit offset))).
  { intros. apply (Hcall (_, _)). left. eauto. }
  apply keeps_bind; [apply _|apply Hload|intros [f|rs more|]];
    try (apply keeps_ret, _).
  destruct rs as [|e rs]; [apply Hset|].
  apply keeps_bind; [apply _| |intros rest].
  { destruct more; [by apply load_more_keeps|apply keeps_ret, _]. }
  apply keeps_bind; [apply _| |intros _].
  { apply keeps_for_each; [apply _|intros a]. by apply act_on_keeps with ctx. }
  apply keeps_bind; [apply _| |intros _; apply Hset].
  apply keeps_for_each; [apply _|intros [email a]].
  apply keeps_bind; [apply _| |intros; apply keeps_ret, _].
  apply (Hcall (_, _)). right. right. right. eauto.
Qed.

Lemma permitted_classify c ctx :
  classify_call ctx c → permitted classify_and_act_node (fst c) = true.
Proof.
  intros [(l & o & ->)|[(i & ->)|[(ids & a & ->)|(e & a & ->)]]]; reflexivity.
Qed.

Lemma records_append_same f l fs :
  PagedDataStore.records f (PagedDataStore.append f l fs)
  = PagedDataStore.records f fs ++ [l].
Proof.
  unfold PagedDataStore.append. unfold PagedDataStore.records at 1.
  by rewrite lookup_insert_eq.
Qed.

Lemma call_actions_appended ctx c :
  classify_call ctx c →
  keeps actions_appended (call default_limit classify_and_act_node (fst c) (snd c)).
Proof.
  intros Hc s. unfold call, invoke. rewrite (permitted_classify c ctx Hc).
  assert (Hsame : ∀ inbox',
            actions_appended s
              (logged (fst c) (snd c) {| files := files (world s); inbox := inbox' |} s)).
  { intros. exists []. by rewrite app_nil_r. }
  assert (Hrefl : actions_appended s (logged (fst c) (snd c) (world s) s)).
  { exists []. by rewrite app_nil_r. }
  destruct Hc as [(l & o & ->)|[(i & ->)|[(ids & a & ->)|(e & a & ->)]]]; simpl.
  - unfold run_tool. simpl. unfold PagedDataStore.load. simpl. exact Hrefl.
  - unfold run_tool. simpl. destruct (Gmail.trash _ _); simpl; [by apply Hsame|exact Hrefl].
  - unfold run_tool. simpl. destruct (Gmail.modify _ _ _ _); simpl; [by apply Hsame|exact Hrefl].
  - unfold run_tool. simpl. exists [action_record e a].
    split; [apply records_append_same|]. by constructor.
Qed.

Lemma classify_call_appended ctx c :
  classify_call ctx c →
  appended c = None ∨ appended c = Some ("actions.jsonl", action_record_fields).
Proof.
  intros [(l & o & ->)|[(i & ->)|[(ids & a & ->)|(e & a & ->)]]];
    [by left|by left|by left|by right].
Qed.

(** C4. Every record the Classify and Act procedure appends is appended to
    [actions.jsonl] and has exactly the fields [email_id], [subject],
    [from], [action], in that order: so for each [append_data] invocation
    and for what the file holds afterwards.  Those are the field names the
    Report text reads the records by. *)
Theorem action_records_have_four_fields budget ctx s :
  let r := classify_and_act_session default_limit dm budget ctx s in
  trace (snd r) = trace s ++ new_calls s r
  ∧ Forall (fun c => appended c = None
                     ∨ appended c = Some ("actions.jsonl", action_record_fields))
      (new_calls s r)
  ∧ (∃ new,
       PagedDataStore.records "actions.jsonl" (files (world (snd r)))
       = PagedDataStore.records "actions.jsonl" (files (world s)) ++ new
       ∧ Forall (fun l => fields l = ["email_id"; "subject"; "from"; "action"]) new)
  ∧ mentions (system_prompt classify_and_act_node)
      "data=<JSON of {email_id, subject, from, action}>" = true
  ∧ mentions (system_prompt report_node)
      "each line is one JSON object with: email_id, subject, from, action." = true.
Proof.
  intros r.
  assert (Hgrew : grew (classify_call ctx) (fun _ => True) s (snd r)).
  { apply classify_and_act_session_keeps; [apply _| |intros; by apply set_output_grew].
    intros [tool args] Hc. by apply call_grew. }
  assert (Hfile : actions_appended s (snd r)).
  { apply classify_and_act_session_keeps;
      [apply _| |intros; apply set_output_actions_appended].
    intros c Hc. by apply call_actions_appended with ctx. }
  apply grew_new in Hgrew as (Htrace & Hcalls & _ & _).
  split; [done|]. split.
  { eapply Forall_impl; [exact Hcalls|]. intros c Hc. by apply classify_call_appended with ctx. }
  split; [exact Hfile|].
  split; vm_compute; reflexivity.
Qed.

(** *** Numbers as text *)



(** *** The batch size *)










(** *** The empty fetch *)

Lemma call_then {A} n tool args (k : ToolResult -> Act A) s :
  (∀ res, keeps (grew (fun _ => True) (fun _ => True)) (k res)) →
  ∃ rest,
    trace (snd (bind (call default_limit n tool args) k s))
    = trace s ++ (tool, args) :: rest.
Proof.
  intros Hk. rewrite bind_eq. unfold call.
  destruct (invoke default_limit n tool args (world s)) as [[e|res] w'].
  - by exists [].
  - destruct (Hk res (logged tool args w' s)) as [(cs & Hcs & _) _].
    exists cs. rewrite Hcs. simpl. by rewrite <- app_assoc.
Qed.

Lemma classify_nothing_fetched budget ctx s :
  PagedDataStore.records (input ctx "emails") (files (world s)) = [] →
  classify_and_act_session default_limit dm budget ctx s =
    (Returned tt,
     {| world := world s;
        trace := trace s ++ [(load_data, LoadArgs (input ctx "emails") None None)];
        outputs := outputs s ++ [("actions_taken", "no emails to process")];
        sent := sent s; replies := replies s |}).
Proof.
  intros Hnone. unfold classify_and_act_session. rewrite bind_eq.
  unfold call, invoke.
  replace (permitted classify_and_act_node load_data) with true by reflexivity.
  unfold run_tool. simpl. unfold PagedDataStore.load.
  rewrite Hnone. simpl. rewrite take_nil. simpl.
  by destruct (world s).
Qed.

Lemma report_nothing_processed budget ctx s :
  input ctx "actions_taken" = "[]" →
  report_session default_limit dm budget ctx s =
    (Returned tt,
     {| world := world s; trace := trace s;
        outputs := outputs s ++ [("summary_report", write_report dm NoEmailsProcessed)];
        sent := sent s; replies := replies s |}).
Proof. intros Hmarker. unfold report_session. by rewrite Hmarker. Qed.

Lemma report_loads_otherwise budget ctx s :
  input ctx "actions_taken" ≠ "[]" →
  ∃ rest,
    new_calls s (report_session default_limit dm budget ctx s)
    = (load_data, LoadArgs (input ctx "actions_taken") None None) :: rest.
Proof.
  intros Hother. unfold report_session.
  destruct (String.eqb_spec (input ctx "actions_taken") "[]") as [|_]; [done|].
  destruct (call_then report_node load_data
              (LoadArgs (input ctx "actions_taken") None None)
              (fun first =>
                 match first with
                 | Page rs more =>
                     bind (if more
                           then load_more default_limit budget report_node
                                  (input ctx "actions_taken") (length rs)
                           else ret [])
                       (fun rest =>
                          set_output "summary_report"
                            (write_report dm (Summary (rs ++ rest))))
                 | _ => ret tt
                 end) s) as [rest Hrest].
  - intros [f|rs more|]; try (apply keeps_ret, _).
    apply keeps_bind; [apply _| |intros; by apply set_output_grew].
    destruct more; [|apply keeps_ret, _].
    apply load_more_keeps; [apply _|intros; by apply call_grew].
  - exists rest. by apply new_calls_app.
Qed.

(** C2. When the emails file holds no record, Classify and Act makes one
    tool invocation, the [load_data] of that file, which changes nothing,
    then sets [actions_taken] and stops: no Gmail tool, no [append_data].
    Report, given the marker ["[]"] for [actions_taken], reports that no
    emails were processed without any tool invocation; given any other
    value it takes the value for a file name and loads it. *)
Theorem nothing_fetched_nothing_done budget ctx s :
  PagedDataStore.records (input ctx "emails") (files (world s)) = [] →
  (let r := classify_and_act_session default_limit dm budget ctx s in
   fst r = Returned tt
   ∧ world (snd r) = world s
   ∧ new_calls s r = [(load_data, LoadArgs (input ctx "emails") None None)]
   ∧ ∃ v, new_outputs s r = [("actions_taken", v)])
  ∧ (∀ budget' ctx' s',
       input ctx' "actions_taken" = "[]" →
       report_session default_limit dm budget' ctx' s' =
         (Returned tt,
          {| world := world s'; trace := trace s';
             outputs := outputs s' ++
               [("summary_report", write_report dm NoEmailsProcessed)];
             sent := sent s'; replies := replies s' |}))
  ∧ (∀ budget' ctx' s',
       input ctx' "actions_taken" ≠ "[]" →
       ∃ rest,
         new_calls s' (report_session default_limit dm budget' ctx' s')
         = (load_data, LoadArgs (input ctx' "actions_taken") None None) :: rest).
Proof.
  intros Hnone. split; [|split].
  - rewrite (classify_nothing_fetched budget ctx s Hnone).
    unfold new_calls, new_outputs. simpl. rewrite !drop_app_length.
    repeat split. by eexists.
  - intros. by apply report_nothing_processed.
  - intros. by apply report_loads_otherwise.
Qed.

(** *** Failures of a session *)

Lemma fails_by_tools_ret {A} (a : A) : fails_by_tools (ret a).
Proof. by intros s e. Qed.

Lemma fails_by_tools_exhausted {A} : fails_by_tools (@exhausted A).
Proof. by intros s e. Qed.

Lemma fails_by_tools_bind {A B} (m : Act A) (k : A -> Act B) :
  fails_by_tools m → (∀ a, fails_by_tools (k a)) → fails_by_tools (bind m k).
Proof.
  intros Hm Hk s e. rewrite bind_eq. specialize (Hm s).
  destruct (m s) as [[a|e'|] s1]; simpl in *.
  - apply Hk.
  - intros [= <-]. by apply Hm.
  - done.
Qed.

Lemma fails_by_tools_for_each {A} (l : list A) (f : A -> Act unit) :
  (∀ x, fails_by_tools (f x)) → fails_by_tools (for_each l f).
Proof.
  intros Hf. induction l as [|x l IH]; simpl.
  - apply fails_by_tools_ret.
  - by apply fails_by_tools_bind.
Qed.

Lemma fails_by_tools_call n tool args :
  fails_by_tools (call default_limit n tool args).
Proof.
  intros s e. unfold call, invoke.
  destruct (permitted n tool).
  - destruct (run_tool default_limit tool args (world s)) as [[r w']|]; simpl; [done|].
    by intros [= <-].
  - simpl. by intros [= <-].
Qed.

Lemma fails_by_tools_load_more budget n filename offset :
  fails_by_tools (load_more default_limit budget n filename offset).
Proof.
  revert offset. induction budget as [|budget IH]; intros offset; simpl.
  - apply fails_by_tools_exhausted.
  - apply fails_by_tools_bind; [apply fails_by_tools_call|].
    intros [f|rs [|]|]; try apply fails_by_tools_ret.
    apply fails_by_tools_bind; [apply IH|intros; apply fails_by_tools_ret].
Qed.

Lemma fails_by_tools_session budget n ctx :
  fails_by_tools (session_of default_limit dm budget n ctx).
Proof.
  unfold session_of.
  destruct (String.eqb (id n) "intake").
  { unfold intake_session.
    apply fails_by_tools_bind; [|intros; apply fails_by_tools_bind; by intros].
    unfold intake_confirm. apply fails_by_tools_bind; [done|intros _].
    induction budget as [|budget IH]; simpl.
    - apply fails_by_tools_exhausted.
    - apply fails_by_tools_bind.
      + intros s e. unfold await_confirmation. by destruct (replies s).
      + intros [|]; [apply fails_by_tools_ret|apply IH]. }
  destruct (String.eqb (id n) "fetch-emails").
  { unfold fetch_emails_session.
    apply fails_by_tools_bind; [apply fails_by_tools_call|].
    by intros [f|rs more|]. }
  destruct (String.eqb (id n) "classify-and-act").
  { unfold classify_and_act_session.
    apply fails_by_tools_bind; [apply fails_by_tools_call|].
    intros [f|rs more|]; try apply fails_by_tools_ret.
    destruct rs as [|e rs]; [done|].
    apply fails_by_tools_bind.
    { destruct more; [apply fails_by_tools_load_more|apply fails_by_tools_ret]. }
    intros rest. apply fails_by_tools_bind.
    { apply fails_by_tools_for_each. intros a. unfold act_on.
      assert (Hbatch : ∀ ids, fails_by_tools
        (bind (call default_limit classify_and_act_node gmail_batch_modify_messages
                 (BatchModifyArgs ids (add_labels a) (remove_labels a)))
              (fun _ => ret tt))).
      { intros. apply fails_by_tools_bind; [apply fails_by_tools_call|done]. }
      destruct (group a _) as [|i ids]; [apply fails_by_tools_ret|].
      destruct a; try apply Hbatch.
      apply fails_by_tools_for_each. intros j.
      apply fails_by_tools_bind; [apply fails_by_tools_call|done]. }
    intros _. apply fails_by_tools_bind; [|done].
    apply fails_by_tools_for_each. intros ea.
    apply fails_by_tools_bind; [apply fails_by_tools_call|done]. }
  destruct (String.eqb (id n) "report"); [|apply fails_by_tools_ret].
  unfold report_session.
  destruct (String.eqb _ _); [done|].
  apply fails_by_tools_bind; [apply fails_by_tools_call|].
  intros [f|rs more|]; try apply fails_by_tools_ret.
  apply fails_by_tools_bind; [|done].
  destruct more; [apply fails_by_tools_load_more|apply fails_by_tools_ret].
Qed.

(** *** The executor *)

Lemma missing_input_none keys (st : gmap string string) :
  (∀ k, k ∈ keys → is_Some (st !! k)) → missing_input keys st = None.
Proof.
  induction keys as [|k keys IH]; intros Hall; simpl; [done|].
  destruct (Hall k) as [v ->]; [left|].
  apply IH. intros k' Hk'. apply Hall. by right.
Qed.

Lemma commit_keeps_keys outs (st : gmap string string) k :
  is_Some (st !! k) → is_Some (commit outs st !! k).
Proof.
  unfold commit. revert st.
  induction outs as [|[k' v] outs IH]; intros st Hk; simpl; [done|].
  apply IH. simpl. rewrite lookup_insert. case_decide; [by eexists|done].
Qed.

Lemma commit_sets_keys outs (st : gmap string string) k :
  times_set k outs ≠ 0 → is_Some (commit outs st !! k).
Proof.
  unfold commit, times_set. revert st.
  induction outs as [|[k' v] outs IH]; intros st; simpl; [done|].
  rewrite filter_cons. simpl.
  destruct (String.eqb_spec k' k) as [->|Hne].
  - intros _. apply (commit_keeps_keys outs). simpl.
    rewrite lookup_insert_eq. by eexists.
  - rewrite decide_False by done. apply IH.
Qed.

Lemma output_failure_none node keys outs k :
  output_failure node keys outs = None → k ∈ keys → times_set k outs = 1.
Proof.
  induction keys as [|k' keys IH]; simpl; intros Hnone Hk.
  - by apply elem_of_nil in Hk.
  - destruct (times_set k' outs) as [|[|c]] eqn:Hc; try done.
    apply elem_of_cons in Hk as [->|Hk]; [done|by apply IH].
Qed.

Lemma output_failure_kind node keys outs e :
  output_failure node keys outs = Some e →
  ∀ n k, e ≠ MissingInputError n k.
Proof.
  induction keys as [|k' keys IH]; simpl; [done|].
  destruct (times_set k' outs) as [|[|c]]; [by intros [= <-]|done|by intros [= <-]].
Qed.

(** A pipeline whose input keys are available never halts on a missing
    input, whatever its sessions do, as long as they fail by tools only. *)
Lemma run_never_misses_input session pipeline have r :
  inputs_available have pipeline = true →
  (∀ k, k ∈ have → is_Some (store r !! k)) →
  (∀ n ctx, fails_by_tools (session n ctx)) →
  ∀ node key, fst (run session pipeline r) ≠ Some (MissingInputError node key).
Proof.
  intros Hok Hhave Hsession node key. revert have r Hok Hhave.
  induction pipeline as [|n pipeline IH]; intros have r Hok Hhave; simpl; [done|].
  apply andb_true_iff in Hok as [Hhere Hrest].
  rewrite forallb_forall in Hhere.
  rewrite missing_input_none.
  2:{ intros k Hk. apply Hhave.
      apply list_elem_of_In, Hhere, bool_decide_eq_true in Hk. done. }
  destruct (session n (context n (store r)) _) as [o s] eqn:Hrun.
  assert (Hnext : ∀ k, k ∈ have ++ output_keys n →
            output_failure (id n) (output_keys n) (outputs s) = None →
            is_Some (commit (outputs s) (store r) !! k)).
  { intros k [Hk|Hk]%elem_of_app Hnone.
    - by apply commit_keeps_keys, Hhave.
    - apply commit_sets_keys.
      by rewrite (output_failure_none _ _ _ _ Hnone Hk). }
  assert (Hafter :
    fst (match output_failure (id n) (output_keys n) (outputs s) with
         | Some e =>
             (Some e,
              {| store := commit (outputs s) (store r); run_world := world s;
                 transcript := transcript r ++ sent s; pending := replies s |})
         | None =>
             run session pipeline
               {| store := commit (outputs s) (store r); run_world := world s;
                  transcript := transcript r ++ sent s; pending := replies s |}
         end) ≠ Some (MissingInputError node key)).
  { destruct (output_failure _ _ _) as [e|] eqn:Hout.
    - simpl. intros [= ->]. by eapply output_failure_kind.
    - apply (IH (have ++ output_keys n)); [done|]. simpl. intros k Hk. by apply Hnext. }
  destruct o as [[]|e|]; [exact Hafter| |exact Hafter].
  simpl. intros [= ->].
  exact (Hsession n _ _ _ (f_equal fst Hrun)).
Qed.

(** The configured pipeline, run by the prescribed sessions from a store
    with both seed keys, never halts on a missing input. *)
Lemma configured_run_never_misses_input budget r :
  is_Some (store r !! "rules") →
  is_Some (store r !! "max_emails") →
  ∀ node key,
    fst (run (session_of default_limit dm budget) all_nodes r)
    ≠ Some (MissingInputError node key).
Proof.
  intros Hrules Hmax.
  apply (run_never_misses_input _ _ seed_keys); [by vm_compute| |].
  - intros k Hk. apply list_elem_of_In in Hk. simpl in Hk.
    by destruct Hk as [<-|[<-|[]]].
  - intros. apply fails_by_tools_session.
Qed.

End Sessions.

(** * The properties on sample data *)

Section Samples.

(** What the instruction texts say, where the procedures above follow
    them. *)
Example instruction_texts :
  mentions (system_prompt intake_node)
    "If max_emails is not provided, default to 100." = true
  ∧ mentions (system_prompt intake_node)
      ("set_output(" +:+ q "max_emails"
       +:+ ", <the confirmed max_emails as a string number") = true
  ∧ mentions (system_prompt fetch_emails_node)
      "Call bulk_fetch_emails with max_emails set to that value." = true
  ∧ mentions (system_prompt classify_and_act_node)
      "your first tool call MUST be load_data" = true
  ∧ mentions (system_prompt classify_and_act_node)
      ("If the result is empty, call set_output(" +:+ q "actions_taken" +:+ ", "
       +:+ q "no emails to process" +:+ ") and stop.") = true
  ∧ mentions (system_prompt classify_and_act_node) (q "[]") = false
  ∧ mentions (system_prompt classify_and_act_node)
      "gmail_trash_message(message_id) — Move a message to trash. No batch version; call per email."
    = true
  ∧ mentions (system_prompt report_node)
      ("If it equals " +:+ q "[]" +:+ ", there are no actions") = true
  ∧ mentions (system_prompt report_node)
      "Otherwise, call load_data(filename=<the actions_taken value>)" = true.
Proof. repeat split; vm_compute; reflexivity. Qed.

(** Each tool of [side_effecting_tools] changes the files or the mailbox
    on some invocation; [load_data] never does. *)
Example side_effecting_tools_change_the_world :
  Forall (fun c => fst c ∈ side_effecting_tools
                   ∧ snd (invoke Sample.page_size (fst (snd c)) (fst c) (snd (snd c))
                            Sample.world0) ≠ Sample.world0)
    [(bulk_fetch_emails, (fetch_emails_node, BulkFetchArgs "3"));
     (gmail_trash_message, (classify_and_act_node, TrashArgs "m1"));
     (gmail_modify_message, (classify_and_act_node, ModifyArgs "m1" ["STARRED"] []));
     (gmail_batch_modify_messages,
      (classify_and_act_node, BatchModifyArgs ["m1"; "m2"] [] ["UNREAD"]));
     (append_data, (classify_and_act_node, AppendArgs "actions.jsonl" []))]
  ∧ length side_effecting_tools = 5.
Proof.
  split; [|reflexivity].
  repeat constructor; simpl;
    try (apply (bool_decide_unpack _); vm_compute; exact I);
    intros H; vm_compute in H; discriminate H.
Qed.

Example sample_whole_run :
  fst Sample.whole_run = None
  ∧ map_to_list (store (snd Sample.whole_run)) ≡ₚ
      [("rules", "trash ads"); ("max_emails", "3"); ("emails", "emails.jsonl");
       ("actions_taken", "actions.jsonl");
       ("summary_report", "3 emails processed.")]
  ∧ Gmail.trashed_ids (inbox (run_world (snd Sample.whole_run))) = ["m1"; "m3"].
Proof.
  split; [by vm_compute|]. split; [|by vm_compute].
  apply (bool_decide_unpack _). vm_compute. exact I.
Qed.

Example sample_classified_trace :
  trace (snd Sample.classified_run) =
    [(load_data, LoadArgs "emails.jsonl" None None);
     (load_data, LoadArgs "emails.jsonl" None (Some 2));
     (gmail_batch_modify_messages, BatchModifyArgs ["m2"] ["STARRED"] []);
     (gmail_trash_message, TrashArgs "m1");
     (gmail_trash_message, TrashArgs "m3");
     (append_data, AppendArgs "actions.jsonl"
        [("email_id", JString "m1"); ("subject", JString "subject m1");
         ("from", JString "ads@shop.example"); ("action", JString "TRASH")]);
     (append_data, AppendArgs "actions.jsonl"
        [("email_id", JString "m2"); ("subject", JString "subject m2");
         ("from", JString "boss@work.example"); ("action", JString "STAR")]);
     (append_data, AppendArgs "actions.jsonl"
        [("email_id", JString "m3"); ("subject", JString "subject m3");
         ("from", JString "ads@shop.example"); ("action", JString "TRASH")])].
Proof. vm_compute. reflexivity. Qed.

Example sample_empty_run :
  trace (snd Sample.empty_run) = [(load_data, LoadArgs "emails.jsonl" None None)]
  ∧ outputs (snd Sample.empty_run) = [("actions_taken", "no emails to process")].
Proof. split; vm_compute; reflexivity. Qed.

(** Report does not take what Classify and Act sets after an empty fetch
    for the marker: it loads a file of that name. *)
Example sample_report_after_empty_run :
  trace (snd (report_session Sample.page_size Sample.dm 10
                {[ "actions_taken" := "no emails to process" ]}
                (Sample.start Sample.fetched_nothing [])))
  = [(load_data, LoadArgs "no emails to process" None None)].
Proof. vm_compute. reflexivity. Qed.

(** C2 as stated fails after a fetch that found nothing: Classify and Act
    does invoke a tool, and the value it sets is not ["[]"]. *)
Lemma empty_fetch_loads_and_sets_other_marker :
  new_calls (Sample.start Sample.fetched_nothing []) Sample.empty_run ≠ []
  ∧ new_outputs (Sample.start Sample.fetched_nothing []) Sample.empty_run
    ≠ [("actions_taken", "[]")].
Proof.
  split; intros H; vm_compute in H; discriminate H.
Qed.

Lemma nothing_fetched_nothing_done_witness :
  fst Sample.empty_run = Returned tt
  ∧ new_calls (Sample.start Sample.fetched_nothing []) Sample.empty_run
    = [(load_data, LoadArgs "emails.jsonl" None None)].
Proof.
  destruct (nothing_fetched_nothing_done Sample.page_size Sample.dm 10
              Sample.classify_context (Sample.start Sample.fetched_nothing []))
    as [(Hok & _ & Hcalls & _) _].
  - vm_compute. reflexivity.
  - split; [exact Hok|exact Hcalls].
Defined.

(** C4 as stated fails on the records of the sample run: their fields are
    not [entity_id], [subject], [sender], [action]. *)
Lemma action_records_lack_entity_id :
  ¬ Forall (fun l => fields l = ["entity_id"; "subject"; "sender"; "action"])
      (PagedDataStore.records "actions.jsonl"
         (files (world (snd Sample.classified_run)))).
Proof.
  intros Hall. vm_compute in Hall.
  inversion Hall as [|l ls Hfields _]. discriminate Hfields.
Qed.

Lemma trash_takes_one_call_per_email_witness :
  (length ["m1"; "m3"] ≤ length (trash_requests Sample.trash_calls))%nat.
Proof.
  destruct (trash_takes_one_call_per_email Sample.page_size Sample.trash_calls
              Sample.world0 ["m1"; "m3"]) as [Hcount _].
  - apply (bool_decide_unpack _). vm_compute. exact I.
  - intros i Hi. apply list_elem_of_In in Hi. simpl in Hi.
    destruct Hi as [<-|[<-|[]]]; apply (bool_decide_unpack _); vm_compute; exact I.
  - intros i Hi. apply list_elem_of_In in Hi. simpl in Hi.
    destruct Hi as [<-|[<-|[]]]; apply (bool_decide_unpack _); vm_compute; exact I.
  - exact Hcount.
Defined.



End Samples.

(** * Further properties of the configuration and the procedures *)

Section DataFlow.

Variable default_limit : nat.
Variable dm : DecisionMaker.

Ltac node_cases H :=
  apply list_elem_of_In in H; simpl in H;
  destruct H as [<-|[<-|[<-|[<-|[]]]]].

Ltac is_member := apply (bool_decide_unpack _); vm_compute; exact I.

(** X1. No output is left unread: every output key of a node is an input
    key of a later node, except [summary_report] of Report, the last
    node. *)
Theorem output_keys_read_downstream before n after k :
  all_nodes = before ++ n :: after →
  k ∈ output_keys n →
  (∃ m, m ∈ after ∧ k ∈ input_keys m)
  ∨ (n = report_node ∧ after = [] ∧ k = "summary_report").
Proof.
  intros Hsplit Hk. unfold all_nodes in Hsplit.
  destruct before as [|b0 [|b1 [|b2 [|b3 [|b4 before]]]]];
    simplify_eq/=; apply list_elem_of_In in Hk; simpl in Hk.
  - destruct Hk as [<-|[<-|[]]]; left; exists fetch_emails_node;
      (split; [left|is_member]).
  - destruct Hk as [<-|[]]. left. exists classify_and_act_node.
    split; [left|is_member].
  - destruct Hk as [<-|[]]. left. exists report_node. split; [left|is_member].
  - destruct Hk as [<-|[]]. by right.
Qed.

Lemma output_keys_read_downstream_witness :
  (∃ m, m ∈ [classify_and_act_node; report_node] ∧ "emails" ∈ input_keys m)
  ∨ (fetch_emails_node = report_node
     ∧ [classify_and_act_node; report_node] = [] ∧ "emails" = "summary_report").
Proof.
  apply (output_keys_read_downstream [intake_node] fetch_emails_node
           [classify_and_act_node; report_node] "emails").
  - reflexivity.
  - apply (bool_decide_unpack _). vm_compute. exact I.
Defined.

(** X2. Each procedure reads the keys its node declares as [input_keys] and
    no other: two input contexts that agree on them give the same session,
    and so does the context cut down to the declared keys. *)
Theorem sessions_read_declared_input_keys budget n :
  n ∈ all_nodes →
  (∀ ctx ctx' : gmap string string,
     (∀ k, k ∈ input_keys n → ctx !! k = ctx' !! k) →
     session_of default_limit dm budget n ctx
     = session_of default_limit dm budget n ctx')
  ∧ (∀ st : gmap string string,
       session_of default_limit dm budget n (context n st)
       = session_of default_limit dm budget n st).
Proof.
  intros Hn.
  assert (Hagree : ∀ ctx ctx' : gmap string string,
     (∀ k, k ∈ input_keys n → ctx !! k = ctx' !! k) →
     session_of default_limit dm budget n ctx
     = session_of default_limit dm budget n ctx').
  { intros ctx ctx' Hsame. node_cases Hn; unfold session_of; simpl.
    - unfold intake_session, input.
      rewrite (Hsame "rules"), (Hsame "max_emails"); [done|is_member..].
    - unfold fetch_emails_session, input.
      rewrite (Hsame "max_emails"); [done|is_member].
    - unfold classify_and_act_session, input.
      rewrite (Hsame "rules"), (Hsame "emails"); [done|is_member..].
    - unfold report_session, input.
      rewrite (Hsame "actions_taken"); [done|is_member]. }
  split; [exact Hagree|].
  intros st. apply Hagree. intros k Hk. unfold context.
  rewrite map_lookup_filter. destruct (st !! k) as [v|]; simpl; [|done].
  by rewrite option_guard_True.
Qed.

End DataFlow.

Lemma sessions_read_declared_input_keys_witness :
  session_of Sample.page_size Sample.dm 10 fetch_emails_node
    (<["emails" := "old.jsonl"]> (<["max_emails" := "3"]> Sample.rules_only))
  = session_of Sample.page_size Sample.dm 10 fetch_emails_node
      (<["max_emails" := "3"]> Sample.rules_only).
Proof.
  destruct (sessions_read_declared_input_keys Sample.page_size Sample.dm 10
              fetch_emails_node) as [Hagree _].
  - unfold all_nodes. right. left.
  - apply Hagree. intros k Hk. apply list_elem_of_In in Hk. simpl in Hk.
    destruct Hk as [<-|[<-|[]]]; vm_compute; reflexivity.
Defined.

Section Procedures.

Variable default_limit : nat.
Variable dm : DecisionMaker.

Ltac node_cases H :=
  apply list_elem_of_In in H; simpl in H;
  destruct H as [<-|[<-|[<-|[<-|[]]]]].

Ltac is_member := apply (bool_decide_unpack _); vm_compute; exact I.

(** *** Sessions that return *)

Lemma runs_ret {A} (a : A) s (Q : A -> SessionState -> Prop) :
  Q a s → runs (ret a) s Q.
Proof. intros HQ. by exists a, s. Qed.

Lemma runs_bind {A B} (m : Act A) (k : A -> Act B) s
    (Q : B -> SessionState -> Prop) :
  runs m s (fun a s1 => runs (k a) s1 Q) → runs (bind m k) s Q.
Proof.
  intros (a & s1 & Hm & (b & s2 & Hk & HQ)).
  exists b, s2. split; [|done]. by rewrite bind_eq, Hm.
Qed.

Lemma runs_weaken {A} (m : Act A) s (Q Q' : A -> SessionState -> Prop) :
  runs m s Q → (∀ a s', Q a s' → Q' a s') → runs m s Q'.
Proof. intros (a & s' & Hm & HQ) Himpl. exists a, s'. auto. Qed.

(** *** Failures *)

Lemma fails_only_ret {A} P (a : A) : fails_only P (ret a).
Proof. by intros s e. Qed.

Lemma fails_only_exhausted {A} P : fails_only P (@exhausted A).
Proof. by intros s e. Qed.

Lemma fails_only_bind {A B} P (m : Act A) (k : A -> Act B) :
  fails_only P m → (∀ a, fails_only P (k a)) → fails_only P (bind m k).
Proof.
  intros Hm Hk s e. rewrite bind_eq. specialize (Hm s).
  destruct (m s) as [[a|e'|] s1]; simpl in *.
  - apply Hk.
  - intros [= <-]. by apply Hm.
  - done.
Qed.

Lemma fails_only_for_each {A} P (l : list A) (f : A -> Act unit) :
  (∀ x, fails_only P (f x)) → fails_only P (for_each l f).
Proof.
  intros Hf. induction l as [|x l IH]; simpl.
  - apply fails_only_ret.
  - by apply fails_only_bind.
Qed.

Lemma fails_only_call n tool args :
  permitted n tool = true →
  fails_only (fun e => ∃ t, e = ToolExecutionError t)
    (call default_limit n tool args).
Proof.
  intros Hp s e. unfold call, invoke. rewrite Hp.
  destruct (run_tool default_limit tool args (world s)) as [[r w']|]; simpl; [done|].
  intros [= <-]. by eexists.
Qed.

Lemma fails_only_load_more P budget n filename :
  (∀ args, fails_only P (call default_limit n load_data args)) →
  ∀ offset, fails_only P (load_more default_limit budget n filename offset).
Proof.
  intros Hcall. induction budget as [|budget IH]; intros offset; simpl.
  - apply fails_only_exhausted.
  - apply fails_only_bind; [apply Hcall|].
    intros [f|rs [|]|]; try apply fails_only_ret.
    apply fails_only_bind; [apply IH|intros; apply fails_only_ret].
Qed.

(** *** Fetch Emails *)

Lemma fetch_emails_session_keeps (R : relation SessionState) `{!PreOrder R} ctx :
  keeps R (call default_limit fetch_emails_node bulk_fetch_emails
             (BulkFetchArgs (input ctx "max_emails"))) →
  (∀ v, keeps R (set_output "emails" v)) →
  keeps R (fetch_emails_session default_limit ctx).
Proof.
  intros Hcall Hset. unfold fetch_emails_session.
  apply keeps_bind; [apply _|apply Hcall|].
  intros [f|rs more|]; [apply Hset|apply keeps_ret, _..].
Qed.

Lemma session_of_grew budget n ctx :
  n ∈ all_nodes →
  keeps (grew (fun c => fst c ∈ tools n) (fun _ => True))
    (session_of default_limit dm budget n ctx).
Proof.
  intros Hn. node_cases Hn; unfold session_of; simpl.
  - apply intake_session_keeps; [apply _|apply send_message_grew
      |apply await_confirmation_grew|by apply set_output_grew..].
  - apply fetch_emails_session_keeps; [apply _| |intros; by apply set_output_grew].
    apply call_grew. simpl. left.
  - apply classify_and_act_session_keeps;
      [apply _| |intros; by apply set_output_grew].
    intros [tool args] Hc. apply call_grew.
    apply (bool_decide_eq_true_1 _).
    exact (permitted_classify (tool, args) ctx Hc).
  - apply report_session_keeps; [apply _| |intros; by apply set_output_grew].
    intros. apply call_grew. simpl. left.
Qed.

Lemma session_of_fails_by_execution budget n ctx :
  n ∈ all_nodes →
  fails_only (fun e => ∃ t, e = ToolExecutionError t)
    (session_of default_limit dm budget n ctx).
Proof.
  set (P := fun e => ∃ t, e = ToolExecutionError t).
  intros Hn. node_cases Hn; unfold session_of; simpl.
  - unfold intake_session.
    apply fails_only_bind; [|intros; apply fails_only_bind; by intros].
    unfold intake_confirm. apply fails_only_bind; [done|intros _].
    induction budget as [|budget IH]; simpl.
    + apply fails_only_exhausted.
    + apply fails_only_bind.
      * intros s e. unfold await_confirmation. by destruct (replies s).
      * intros [|]; [apply fails_only_ret|apply IH].
  - unfold fetch_emails_session.
    apply fails_only_bind; [by apply fails_only_call|].
    by intros [f|rs more|].
  - unfold classify_and_act_session.
    apply fails_only_bind; [by apply fails_only_call|].
    intros [f|rs more|]; try apply fails_only_ret.
    destruct rs as [|e rs]; [done|].
    apply fails_only_bind.
    { destruct more; [|apply fails_only_ret].
      apply fails_only_load_more. intros. by apply fails_only_call. }
    intros rest. apply fails_only_bind.
    { apply fails_only_for_each. intros a. unfold act_on.
      assert (Hbatch : ∀ ids, fails_only P
        (bind (call default_limit classify_and_act_node gmail_batch_modify_messages
                 (BatchModifyArgs ids (add_labels a) (remove_labels a)))
              (fun _ => ret tt))).
      { intros. apply fails_only_bind; [by apply fails_only_call|done]. }
      destruct (group a _) as [|i ids]; [apply fails_only_ret|].
      destruct a; try apply Hbatch.
      apply fails_only_for_each. intros j.
      apply fails_only_bind; [by apply fails_only_call|done]. }
    intros _. apply fails_only_bind; [|done].
    apply fails_only_for_each. intros ea.
    apply fails_only_bind; [by apply fails_only_call|done].
  - unfold report_session.
    destruct (String.eqb _ _); [done|].
    apply fails_only_bind; [by apply fails_only_call|].
    intros [f|rs more|]; try apply fails_only_ret.
    apply fails_only_bind; [|done].
    destruct more; [|apply fails_only_ret].
    apply fails_only_load_more. intros. by apply fails_only_call.
Qed.

(** X3. The procedures stay inside the whitelists: every tool a session of
    a configured node invokes is in that node's [tools], so the gateway
    never rejects it, and a session fails only when a tool's execution
    fails. *)
Theorem sessions_invoke_whitelisted_tools budget n ctx s :
  n ∈ all_nodes →
  trace (snd (session_of default_limit dm budget n ctx s))
  = trace s ++ new_calls s (session_of default_limit dm budget n ctx s)
  ∧ Forall (fun c => fst c ∈ tools n)
      (new_calls s (session_of default_limit dm budget n ctx s))
  ∧ (∀ e, fst (session_of default_limit dm budget n ctx s) = Failed e →
          ∃ tool, e = ToolExecutionError tool).
Proof.
  intros Hn.
  destruct (grew_new _ _ s _ (session_of_grew budget n ctx Hn s))
    as (Htrace & Hcalls & _ & _).
  split; [done|]. split; [done|].
  intros e He. by apply (session_of_fails_by_execution budget n ctx Hn s).
Qed.

(** *** The output contract *)

Global Instance same_outputs_preorder : PreOrder same_outputs.
Proof. split; unfold same_outputs; [done|congruence]. Qed.

Lemma call_same_outputs n tool args :
  keeps same_outputs (call default_limit n tool args).
Proof.
  intros s. unfold call.
  by destruct (invoke default_limit n tool args (world s)) as [[e|r] w'].
Qed.

Lemma send_message_same_outputs text : keeps same_outputs (send_message text).
Proof. by intros s. Qed.

Lemma await_confirmation_same_outputs : keeps same_outputs await_confirmation.
Proof. intros s. unfold await_confirmation. by destruct (replies s). Qed.

Lemma call_result_shape n tool args s res s' :
  call default_limit n tool args s = (Returned res, s') → result_shape args res.
Proof.
  unfold call, invoke. destruct (permitted n tool); [|done].
  destruct (run_tool default_limit tool args (world s)) as [[r w']|] eqn:Hrun;
    [|done].
  intros [= -> _]. revert Hrun. unfold run_tool.
  destruct (negb _); [done|].
  destruct args as [m|f l o|f d|ids add remove|i add remove|i]; simpl.
  - destruct (parse_nat m); [|done]. intros [= <- _]. by eexists.
  - unfold PagedDataStore.load. intros [= <- _]. by do 2 eexists.
  - by intros [= <- _].
  - destruct (Gmail.modify _ _ _ _); [|done]. by intros [= <- _].
  - destruct (Gmail.modify _ _ _ _); [|done]. by intros [= <- _].
  - destruct (Gmail.trash _ _); [|done]. by intros [= <- _].
Qed.

Lemma completes_set_output k v : completes [k] (set_output k v).
Proof.
  intros s. unfold new_outputs. simpl. rewrite drop_app_length. by repeat split.
Qed.

Lemma completes_bind {A} keys (m : Act A) (k : A -> Act unit) (S : A -> Prop) :
  keeps same_outputs m →
  (∀ s a s', m s = (Returned a, s') → S a) →
  (∀ a, S a → completes keys (k a)) →
  completes keys (bind m k).
Proof.
  intros Hm HS Hk s. rewrite bind_eq. specialize (Hm s). unfold same_outputs in Hm.
  destruct (m s) as [[a|e|] s1] eqn:Hms; simpl in Hm.
  - destruct (Hk a (HS _ _ _ Hms) s1) as (Hout & Hret & Hnot).
    unfold new_outputs in *. rewrite <- Hm. done.
  - unfold new_outputs. simpl. rewrite Hm, drop_all, app_nil_r. by repeat split.
  - unfold new_outputs. simpl. rewrite Hm, drop_all, app_nil_r. by repeat split.
Qed.

Lemma completes_quiet {A} keys (m : Act A) (k : A -> Act unit) :
  keeps same_outputs m → (∀ a, completes keys (k a)) → completes keys (bind m k).
Proof.
  intros Hm Hk. apply (completes_bind keys m k (fun _ => True)); auto.
Qed.

Lemma session_of_completes budget n ctx :
  n ∈ all_nodes →
  completes (output_keys n) (session_of default_limit dm budget n ctx).
Proof.
  intros Hn. node_cases Hn; unfold session_of; simpl.
  - unfold intake_session. apply completes_quiet.
    { apply intake_confirm_keeps; [apply _|apply send_message_same_outputs
        |apply await_confirmation_same_outputs]. }
    intros _ s. unfold new_outputs. simpl.
    rewrite <- app_assoc, drop_app_length. by repeat split.
  - unfold fetch_emails_session.
    eapply completes_bind; [apply call_same_outputs|apply call_result_shape|].
    intros res [f ->]. apply completes_set_output.
  - unfold classify_and_act_session.
    eapply completes_bind; [apply call_same_outputs|apply call_result_shape|].
    intros res (rs & more & ->).
    destruct rs as [|e rs]; [apply completes_set_output|].
    apply completes_quiet.
    { destruct more; [|apply keeps_ret, _].
      apply load_more_keeps; [apply _|intros; apply call_same_outputs]. }
    intros rest. apply completes_quiet.
    { apply keeps_for_each; [apply _|intros a].
      apply (act_on_keeps default_limit same_outputs ctx).
      intros; apply call_same_outputs. }
    intros _. apply completes_quiet; [|intros; apply completes_set_output].
    apply keeps_for_each; [apply _|intros ea].
    apply keeps_bind; [apply _|apply call_same_outputs|intros; apply keeps_ret, _].
  - unfold report_session.
    destruct (String.eqb _ _); [apply completes_set_output|].
    eapply completes_bind; [apply call_same_outputs|apply call_result_shape|].
    intros res (rs & more & ->).
    apply completes_quiet; [|intros; apply completes_set_output].
    destruct more; [|apply keeps_ret, _].
    apply load_more_keeps; [apply _|intros; apply call_same_outputs].
Qed.

(** X4. A session of a configured node that returns has set exactly the
    node's [output_keys], each once and in the declared order, so the
    exactly-once check on the outputs passes; a session that fails or runs
    out of budget has set nothing. *)
Theorem returned_sessions_set_declared_outputs budget n ctx s :
  n ∈ all_nodes →
  outputs (snd (session_of default_limit dm budget n ctx s))
  = outputs s ++ new_outputs s (session_of default_limit dm budget n ctx s)
  ∧ (fst (session_of default_limit dm budget n ctx s) = Returned tt →
       map fst (new_outputs s (session_of default_limit dm budget n ctx s))
       = output_keys n
       ∧ output_failure (id n) (output_keys n)
           (new_outputs s (session_of default_limit dm budget n ctx s)) = None)
  ∧ (fst (session_of default_limit dm budget n ctx s) ≠ Returned tt →
       new_outputs s (session_of default_limit dm budget n ctx s) = []).
Proof.
  intros Hn.
  destruct (session_of_completes budget n ctx Hn s) as (Hout & Hret & Hnot).
  split; [done|]. split; [|done].
  intros Hok. specialize (Hret Hok). split; [done|].
  revert Hret.
  generalize (new_outputs s (session_of default_limit dm budget n ctx s)).
  intros outs Hkeys. node_cases Hn; simpl in *;
    repeat (destruct outs as [|[? ?] outs]; simplify_eq/=); reflexivity.
Qed.

(** *** The label reference *)

Lemma modify_keeps_ids (ids add remove : list string) box :
  map msg_id (map (fun m => if bool_decide (msg_id m ∈ ids)
                            then Gmail.relabel add remove m else m) box)
  = map msg_id box.
Proof.
  induction box as [|m box IH]; simpl; [done|].
  rewrite IH. by destruct (bool_decide _).
Qed.

Lemma modify_known ids add remove box :
  Gmail.valid_labels add = true → Gmail.valid_labels remove = true →
  Gmail.known ids box = true →
  ∃ box', Gmail.modify ids add remove box = Some box'
          ∧ map msg_id box' = map msg_id box
          ∧ Gmail.trashed_ids box' = Gmail.trashed_ids box.
Proof.
  intros Hadd Hremove Hknown. unfold Gmail.modify.
  rewrite Hadd, Hremove, Hknown. simpl. eexists. split; [done|].
  split; [apply modify_keeps_ids|apply trashed_ids_relabel].
Qed.

(** X5. Every label the Gmail label reference adds or removes is a label
    of the vocabulary, no action adds a label it removes, and every action
    but TRASH changes some label; so the batched label call of a group of
    known messages succeeds, keeping the message ids and what is in the
    trash.  TRASH itself changes no label. *)
Theorem label_reference_within_vocabulary a ids box :
  a ≠ TRASH →
  Gmail.known ids box = true →
  Gmail.valid_labels (add_labels a) = true
  ∧ Gmail.valid_labels (remove_labels a) = true
  ∧ (∀ l, l ∈ add_labels a → l ∉ remove_labels a)
  ∧ add_labels a ++ remove_labels a ≠ []
  ∧ add_labels TRASH ++ remove_labels TRASH = []
  ∧ ∃ box', Gmail.modify ids (add_labels a) (remove_labels a) box = Some box'
            ∧ map msg_id box' = map msg_id box
            ∧ Gmail.trashed_ids box' = Gmail.trashed_ids box.
Proof.
  intros Ha Hknown.
  assert (Hadd : Gmail.valid_labels (add_labels a) = true) by by destruct a.
  assert (Hremove : Gmail.valid_labels (remove_labels a) = true) by by destruct a.
  split; [done|]. split; [done|]. split.
  { intros l Hl Hr. apply list_elem_of_In in Hl, Hr.
    destruct a; simpl in *; intuition congruence. }
  split; [by destruct a|]. split; [done|].
  by apply modify_known.
Qed.

(** *** Intake and the confirmation *)

Lemma await_confirmed_quiet budget s :
  world (snd (await_confirmed budget s)) = world s
  ∧ trace (snd (await_confirmed budget s)) = trace s
  ∧ outputs (snd (await_confirmed budget s)) = outputs s
  ∧ sent (snd (await_confirmed budget s)) = sent s.
Proof.
  revert s. induction budget as [|budget IH]; intros s; simpl; [done|].
  rewrite bind_eq. unfold await_confirmation.
  destruct (replies s) as [|[|] bs]; simpl; [done..|].
  match goal with
  | |- context [await_confirmed budget ?s1] => destruct (IH s1) as (? & ? & ? & ?)
  end.
  done.
Qed.


Lemma await_confirmed_unconfirmed budget s :
  (∀ b, b ∈ take budget (replies s) → b = false) →
  fst (await_confirmed budget s) = Exhausted.
Proof.
  revert s. induction budget as [|budget IH]; intros s Hall; simpl; [done|].
  rewrite bind_eq. unfold await_confirmation.
  destruct (replies s) as [|b bs] eqn:Hreplies; simpl; [done|].
  assert (b = false) as -> by (apply Hall; left).
  apply IH. simpl. intros b Hb. apply Hall. by right.
Qed.

Lemma intake_confirm_unconfirmed summary budget s :
  (∀ b, b ∈ take budget (replies s) → b = false) →
  fst (intake_confirm budget summary s) = Exhausted
  ∧ world (snd (intake_confirm budget summary s)) = world s
  ∧ trace (snd (intake_confirm budget summary s)) = trace s
  ∧ outputs (snd (intake_confirm budget summary s)) = outputs s.
Proof.
  intros Hall. unfold intake_confirm. rewrite bind_eq.
  set (s1 := {| world := world s; trace := trace s; outputs := outputs s;
                sent := sent s ++ [summary]; replies := replies s |}).
  change (send_message summary s) with (Returned tt, s1). cbv beta iota.
  destruct (await_confirmed_quiet budget s1) as (Hw & Ht & Ho & _).
  pose proof (await_confirmed_unconfirmed budget s1 Hall) as Hex.
  by rewrite Hex, Hw, Ht, Ho.
Qed.



(** X7. Without a confirmation Intake sets nothing: when every answer it
    gets within its budget is a refusal, or the answers run out, the
    session ends exhausted with no output set and no tool invoked. *)
Theorem intake_sets_nothing_unconfirmed budget ctx s :
  (∀ b, b ∈ take budget (replies s) → b = false) →
  fst (intake_session dm budget ctx s) = Exhausted
  ∧ world (snd (intake_session dm budget ctx s)) = world s
  ∧ trace (snd (intake_session dm budget ctx s)) = trace s
  ∧ outputs (snd (intake_session dm budget ctx s)) = outputs s.
Proof.
  intros Hall. unfold intake_session. rewrite bind_eq.
  destruct (intake_confirm_unconfirmed
              (present dm (describe_rules dm (input ctx "rules"))
                 (batch_size dm (ctx !! "max_emails"))) budget s Hall)
    as (Hex & Hw & Ht & Ho).
  destruct (intake_confirm budget _ s) as [[[]|e|] s1]; simpl in *; done.
Qed.

(** *** Reading a file page by page *)

Lemma call_load n f limit offset s :
  load_data ∈ tools n →
  call default_limit n load_data (LoadArgs f limit offset) s =
    (Returned
       (Page (take (default default_limit limit)
                (drop (default 0 offset)
                   (PagedDataStore.records f (files (world s)))))
             (bool_decide
                (default 0 offset + default default_limit limit
                 < length (PagedDataStore.records f (files (world s)))))),
     logged load_data (LoadArgs f limit offset) (world s) s).
Proof.
  intros Hin. unfold call, invoke, permitted.
  rewrite bool_decide_eq_true_2 by done.
  unfold run_tool. simpl. unfold PagedDataStore.load. done.
Qed.

Lemma load_more_rest budget n f offset s :
  load_data ∈ tools n →
  0 < default_limit →
  0 < budget →
  (length (PagedDataStore.records f (files (world s))) - offset
   ≤ budget * default_limit)%nat →
  ∃ loads,
    load_more default_limit budget n f offset s =
      (Returned (drop offset (PagedDataStore.records f (files (world s)))),
       {| world := world s; trace := trace s ++ loads; outputs := outputs s;
          sent := sent s; replies := replies s |})
    ∧ Forall (is_load f) loads
    ∧ loads ≠ []
    ∧ (length loads ≤ budget)%nat.
Proof.
  intros Hin Hsize. revert offset s.
  induction budget as [|budget IH]; intros offset s Hpos Hfit; [lia|].
  set (rs := PagedDataStore.records f (files (world s))) in *.
  simpl load_more. rewrite bind_eq, call_load by done. cbn [from_option Datatypes.id]. fold rs.
  case_bool_decide as Hmore; simpl in Hmore.
  - assert (Hlen : length (take default_limit (drop offset rs)) = default_limit).
    { rewrite length_take, length_drop. lia. }
    rewrite bind_eq, Hlen.
    destruct (IH (offset + default_limit)
                (logged load_data (LoadArgs f None (Some offset)) (world s) s))
      as (loads & Hrun & Hloads & _ & Hcount).
    { destruct budget; [simpl in Hfit|]; lia. }
    { simpl. fold rs. lia. }
    rewrite Hrun. simpl. fold rs.
    exists ((load_data, LoadArgs f None (Some offset)) :: loads).
    split; [|split; [|split; [done|simpl; lia]]].
    + rewrite <- app_assoc. simpl.
      rewrite <- (take_drop default_limit (drop offset rs)) at 2.
      by rewrite drop_drop.
    + constructor; [by do 2 eexists|done].
  - exists [(load_data, LoadArgs f None (Some offset))].
    split; [|split; [|split; [done|simpl; lia]]].
    + unfold ret, logged. rewrite take_ge; [done|]. rewrite length_drop. lia.
    + constructor; [by do 2 eexists|done].
Qed.

(** X8. The paging loop reads the rest of a file: with a positive page
    size and a budget of at least one iteration per page left, it returns
    every record from [offset] on, in file order and each once, by
    [load_data] invocations on that file alone, at most one per unit of
    budget, and changes nothing else. *)
Theorem load_more_reads_the_rest budget n f offset s :
  load_data ∈ tools n →
  0 < default_limit →
  0 < budget →
  (length (PagedDataStore.records f (files (world s))) - offset
   ≤ budget * default_limit)%nat →
  ∃ loads,
    load_more default_limit budget n f offset s =
      (Returned (drop offset (PagedDataStore.records f (files (world s)))),
       {| world := world s; trace := trace s ++ loads; outputs := outputs s;
          sent := sent s; replies := replies s |})
    ∧ Forall (is_load f) loads
    ∧ loads ≠ []
    ∧ (length loads ≤ budget)%nat.
Proof. intros. by apply load_more_rest. Qed.

Lemma load_rest budget n f s :
  load_data ∈ tools n →
  0 < default_limit →
  (length (PagedDataStore.records f (files (world s)))
   ≤ S budget * default_limit)%nat →
  ∃ rest loads,
    (if bool_decide
          (0 + default_limit < length (PagedDataStore.records f (files (world s))))
     then load_more default_limit budget n f
            (length (take default_limit
                       (PagedDataStore.records f (files (world s)))))
     else ret []) s
    = (Returned rest,
       {| world := world s; trace := trace s ++ loads; outputs := outputs s;
          sent := sent s; replies := replies s |})
    ∧ take default_limit (PagedDataStore.records f (files (world s))) ++ rest
      = PagedDataStore.records f (files (world s))
    ∧ Forall (is_load f) loads.
Proof.
  intros Hin Hsize Hfit.
  set (rs := PagedDataStore.records f (files (world s))) in *.
  case_bool_decide as Hmore; simpl in Hmore.
  - assert (Hlen : length (take default_limit rs) = default_limit).
    { rewrite length_take. lia. }
    rewrite Hlen.
    destruct (load_more_rest budget n f default_limit s)
      as (loads & Hrun & Hloads & _); try done.
    { destruct budget; [simpl in Hfit|]; lia. }
    { fold rs. simpl in Hfit. lia. }
    exists (drop default_limit rs), loads. fold rs in Hrun.
    split; [done|]. split; [apply take_drop|done].
  - exists [], []. unfold ret. rewrite !app_nil_r.
    split; [by destruct s|]. split; [|done].
    apply take_ge. lia.
Qed.

Lemma report_runs budget ctx s :
  input ctx "actions_taken" ≠ "[]" →
  0 < default_limit →
  (length (PagedDataStore.records (input ctx "actions_taken") (files (world s)))
   ≤ S budget * default_limit)%nat →
  ∃ loads,
    report_session default_limit dm budget ctx s =
      (Returned tt,
       {| world := world s; trace := trace s ++ loads;
          outputs := outputs s ++
            [("summary_report",
              write_report dm
                (Summary (PagedDataStore.records (input ctx "actions_taken")
                            (files (world s)))))];
          sent := sent s; replies := replies s |})
    ∧ Forall (is_load (input ctx "actions_taken")) loads.
Proof.
  intros Hother Hsize Hfit. unfold report_session.
  destruct (String.eqb_spec (input ctx "actions_taken") "[]") as [|_]; [done|].
  set (f := input ctx "actions_taken") in *.
  rewrite bind_eq, call_load by (simpl; left). cbn [from_option Datatypes.id]. rewrite drop_0.
  set (s1 := logged load_data (LoadArgs f None None) (world s) s).
  destruct (load_rest budget report_node f s1) as (rest & loads & Hrun & Hall & Hloads);
    [simpl; left|done|done|].
  change (files (world s1)) with (files (world s)) in Hrun, Hall.
  rewrite bind_eq, Hrun. unfold set_output. simpl.
  rewrite Hall.
  exists ((load_data, LoadArgs f None None) :: loads).
  split; [by rewrite <- app_assoc|].
  constructor; [by do 2 eexists|done].
Qed.

(** X9. Report reads all records before it writes: given a file name
    other than the marker, a positive page size and budget enough for the
    pages after the first, it returns having set [summary_report] to the
    report written from every record of the file, in file order, by
    [load_data] invocations on that file alone. *)
Theorem report_is_written_from_every_record budget ctx s :
  input ctx "actions_taken" ≠ "[]" →
  0 < default_limit →
  (length (PagedDataStore.records (input ctx "actions_taken") (files (world s)))
   ≤ S budget * default_limit)%nat →
  ∃ loads,
    report_session default_limit dm budget ctx s =
      (Returned tt,
       {| world := world s; trace := trace s ++ loads;
          outputs := outputs s ++
            [("summary_report",
              write_report dm
                (Summary (PagedDataStore.records (input ctx "actions_taken")
                            (files (world s)))))];
          sent := sent s; replies := replies s |})
    ∧ Forall (is_load (input ctx "actions_taken")) loads.
Proof. intros. by apply report_runs. Qed.

(** *** A session as the invocations it made *)

Lemma attempt_all_app n cs1 cs2 w :
  attempt_all default_limit n (cs1 ++ cs2) w
  = attempt_all default_limit n cs2 (attempt_all default_limit n cs1 w).
Proof. unfold attempt_all. apply foldl_app. Qed.

Lemma did_refl n s : did default_limit n [] s s.
Proof. unfold did. by rewrite app_nil_r. Qed.

Lemma did_trans n cs1 cs2 s1 s2 s3 :
  did default_limit n cs1 s1 s2 → did default_limit n cs2 s2 s3 →
  did default_limit n (cs1 ++ cs2) s1 s3.
Proof.
  intros (Ht1 & Ho1 & Hs1 & Hr1 & Hw1) (Ht2 & Ho2 & Hs2 & Hr2 & Hw2).
  unfold did. rewrite Ht2, Ht1, Ho2, Ho1, Hs2, Hs1, Hr2, Hr1, Hw2, Hw1.
  by rewrite app_assoc, attempt_all_app.
Qed.

Lemma trash_keeps_ids i box :
  map msg_id (map (fun m => if String.eqb (msg_id m) i
                            then Gmail.to_trash m else m) box)
  = map msg_id box.
Proof.
  induction box as [|m box IH]; simpl; [done|].
  rewrite IH. by destruct (String.eqb _ _).
Qed.

Lemma invoke_keeps_ids n tool args w :
  map msg_id (inbox (snd (invoke default_limit n tool args w)))
  = map msg_id (inbox w).
Proof.
  unfold invoke. destruct (permitted n tool); [|done].
  destruct (run_tool default_limit tool args w) as [[r w']|] eqn:Hrun; [|done].
  simpl. revert Hrun. unfold run_tool. destruct (negb _); [done|].
  destruct args as [m|f l o|f d|ids add remove|i add remove|i]; simpl.
  - destruct (parse_nat m); [|done]. by intros [= _ <-].
  - unfold PagedDataStore.load. by intros [= _ <-].
  - by intros [= _ <-].
  - unfold Gmail.modify. destruct (_ && _); [|done].
    intros [= _ <-]. apply modify_keeps_ids.
  - unfold Gmail.modify. destruct (_ && _); [|done].
    intros [= _ <-]. apply modify_keeps_ids.
  - unfold Gmail.trash. destruct (Gmail.known _ _); [|done].
    intros [= _ <-]. apply trash_keeps_ids.
Qed.

Lemma attempt_all_keeps_ids n cs w :
  map msg_id (inbox (attempt_all default_limit n cs w)) = map msg_id (inbox w).
Proof.
  revert w. induction cs as [|[tool args] cs IH]; intros w; [done|].
  change (attempt_all default_limit n ((tool, args) :: cs) w)
    with (attempt_all default_limit n cs (snd (invoke default_limit n tool args w))).
  by rewrite IH, invoke_keeps_ids.
Qed.

Lemma call_runs n tool args s r w' :
  invoke default_limit n tool args (world s) = (inr r, w') →
  runs (call default_limit n tool args) s
    (fun res s1 => res = r ∧ did default_limit n [(tool, args)] s s1).
Proof.
  intros Hinv. unfold runs, call. rewrite Hinv.
  eexists _, _. split; [done|]. split; [done|].
  unfold did, attempt_all. simpl. by rewrite Hinv.
Qed.

Lemma for_each_runs {A} n (l : list A) (f : A -> Act unit)
    (calls : A -> list (string * ToolArgs)) M :
  (∀ x s0, x ∈ l → map msg_id (inbox (world s0)) = M →
           runs (f x) s0 (fun _ s1 => did default_limit n (calls x) s0 s1)) →
  ∀ s, map msg_id (inbox (world s)) = M →
       runs (for_each l f) s
         (fun _ s1 => did default_limit n (flat_map calls l) s s1).
Proof.
  induction l as [|x l IH]; intros Hf s HM; simpl.
  - apply runs_ret, did_refl.
  - apply runs_bind.
    destruct (Hf x s (list_elem_of_here _ _) HM) as ([] & s1 & Hrun & Hdid).
    exists tt, s1. split; [done|].
    eapply runs_weaken; [apply IH|].
    + intros y s0 Hy. apply Hf. by right.
    + destruct Hdid as (_ & _ & _ & _ & ->). by rewrite attempt_all_keeps_ids.
    + intros u s2 Hrest. by apply did_trans with s1.
Qed.

Lemma attempt_all_loads n f cs w :
  Forall (is_load f) cs → attempt_all default_limit n cs w = w.
Proof.
  intros Hall. revert w. induction Hall as [|c cs (l & o & ->) _ IH]; intros w; [done|].
  change (attempt_all default_limit n ((load_data, LoadArgs f l o) :: cs) w)
    with (attempt_all default_limit n cs
            (snd (invoke default_limit n load_data (LoadArgs f l o) w))).
  by rewrite invoke_load_data.
Qed.

(** *** Classify and Act, step by step *)

Lemma flat_map_singleton {A B} (f : A -> B) (l : list A) :
  flat_map (fun x => [f x]) l = map f l.
Proof. induction l as [|x l IH]; simpl; by rewrite ?IH. Qed.

Lemma known_of_ids ids box :
  (∀ i, i ∈ ids → i ∈ map msg_id box) → Gmail.known ids box = true.
Proof.
  intros Hall. unfold Gmail.known. apply forallb_forall.
  intros i Hi. apply bool_decide_eq_true_2, Hall. by apply list_elem_of_In.
Qed.

Lemma invoke_trash_ok i w :
  i ∈ map msg_id (inbox w) →
  ∃ w', invoke default_limit classify_and_act_node gmail_trash_message
          (TrashArgs i) w = (inr Succeeded, w').
Proof.
  intros Hi. unfold invoke.
  replace (permitted classify_and_act_node gmail_trash_message) with true
    by reflexivity.
  unfold run_tool. simpl. unfold Gmail.trash.
  rewrite known_of_ids; [by eexists|].
  intros j [->|Hj%elem_of_nil]%elem_of_cons; done.
Qed.

Lemma invoke_batch_ok a ids w :
  a ≠ TRASH →
  (∀ i, i ∈ ids → i ∈ map msg_id (inbox w)) →
  ∃ w', invoke default_limit classify_and_act_node gmail_batch_modify_messages
          (BatchModifyArgs ids (add_labels a) (remove_labels a)) w
        = (inr Succeeded, w').
Proof.
  intros Ha Hids. unfold invoke.
  replace (permitted classify_and_act_node gmail_batch_modify_messages) with true
    by reflexivity.
  unfold run_tool. simpl.
  destruct (modify_known ids (add_labels a) (remove_labels a) (inbox w))
    as (box' & -> & _); [by destruct a|by destruct a|by apply known_of_ids|].
  by eexists.
Qed.

Lemma invoke_append_ok f l w :
  invoke default_limit classify_and_act_node append_data (AppendArgs f l) w
  = (inr Succeeded,
     {| files := PagedDataStore.append f l (files w); inbox := inbox w |}).
Proof. reflexivity. Qed.

Lemma act_on_runs a ids s :
  (∀ i, i ∈ ids → i ∈ map msg_id (inbox (world s))) →
  runs (act_on default_limit a ids) s
    (fun _ s1 => did default_limit classify_and_act_node (group_calls a ids) s s1).
Proof.
  intros Hids. unfold act_on, group_calls.
  destruct ids as [|i0 ids']; [apply runs_ret, did_refl|].
  set (ids := i0 :: ids') in *.
  assert (Hbatch : a ≠ TRASH →
    runs (bind (call default_limit classify_and_act_node
                  gmail_batch_modify_messages
                  (BatchModifyArgs ids (add_labels a) (remove_labels a)))
               (fun _ => ret tt)) s
      (fun _ s1 =>
         did default_limit classify_and_act_node
           [(gmail_batch_modify_messages,
             BatchModifyArgs ids (add_labels a) (remove_labels a))] s s1)).
  { intros Ha. apply runs_bind.
    destruct (invoke_batch_ok a ids (world s) Ha Hids) as [w' Hinv].
    eapply runs_weaken; [by apply call_runs with w'|].
    intros res s1 [_ Hdid]. by apply runs_ret. }
  destruct a; try (by apply Hbatch).
  rewrite <- flat_map_singleton.
  apply for_each_runs with (M := map msg_id (inbox (world s))); [|done].
  intros i s0 Hi HM. apply runs_bind.
  destruct (invoke_trash_ok i (world s0)) as [w' Hinv].
  { rewrite HM. by apply Hids. }
  eapply runs_weaken; [by apply call_runs with w'|].
  intros res s1 [_ Hdid]. by apply runs_ret.
Qed.

Lemma classified_emails rules emails e a :
  (e, a) ∈ classified dm rules emails → e ∈ emails.
Proof.
  induction emails as [|e0 emails IH]; simpl; [by intros ?%elem_of_nil|].
  destruct (choose_action dm rules e0).
  - intros [[= -> ->]|Hin]%elem_of_cons; [left|right; by apply IH].
  - intros Hin. right. by apply IH.
Qed.

Lemma group_acted a acting i :
  i ∈ group a acting → i ∈ acted_ids acting.
Proof.
  unfold group, acted_ids. intros ([e a'] & -> & Hin)%list_elem_of_fmap.
  apply list_elem_of_filter in Hin as [_ Hin].
  apply list_elem_of_fmap. by exists (e, a').
Qed.

Lemma acted_known rules emails box i :
  ids_known emails box →
  i ∈ acted_ids (classified dm rules emails) → i ∈ map msg_id box.
Proof.
  intros Hknown ([e a] & -> & Hin)%list_elem_of_fmap.
  apply Hknown. by apply classified_emails in Hin.
Qed.

Lemma classify_runs budget ctx s :
  PagedDataStore.records (input ctx "emails") (files (world s)) ≠ [] →
  0 < default_limit →
  (length (PagedDataStore.records (input ctx "emails") (files (world s)))
   ≤ S budget * default_limit)%nat →
  ids_known (PagedDataStore.records (input ctx "emails") (files (world s)))
    (inbox (world s)) →
  ∃ loads s',
    classify_and_act_session default_limit dm budget ctx s = (Returned tt, s')
    ∧ Forall (is_load (input ctx "emails")) loads
    ∧ loads ≠ []
    ∧ trace s' = trace s ++ loads
        ++ gmail_calls (classified dm (input ctx "rules")
             (PagedDataStore.records (input ctx "emails") (files (world s))))
        ++ record_calls (classified dm (input ctx "rules")
             (PagedDataStore.records (input ctx "emails") (files (world s))))
    ∧ outputs s' = outputs s ++ [("actions_taken", "actions.jsonl")]
    ∧ sent s' = sent s
    ∧ replies s' = replies s
    ∧ world s' =
        attempt_all default_limit classify_and_act_node
          (gmail_calls (classified dm (input ctx "rules")
             (PagedDataStore.records (input ctx "emails") (files (world s))))
           ++ record_calls (classified dm (input ctx "rules")
             (PagedDataStore.records (input ctx "emails") (files (world s)))))
          (world s).
Proof.
  intros Hsome Hsize Hfit Hknown.
  set (f := input ctx "emails") in *.
  set (emails := PagedDataStore.records f (files (world s))) in *.
  set (acting := classified dm (input ctx "rules") emails).
  unfold classify_and_act_session. fold f.
  rewrite bind_eq, call_load by is_member.
  cbn [from_option Datatypes.id]. rewrite drop_0. fold emails.
  set (s1 := logged load_data (LoadArgs f None None) (world s) s).
  destruct (load_rest budget classify_and_act_node f s1)
    as (rest & loads & Hrun & Hall & Hloads); [is_member|done|done|].
  change (files (world s1)) with (files (world s)) in Hrun, Hall.
  fold emails in Hrun, Hall.
  destruct (take default_limit emails) as [|e page] eqn:Hpage.
  { destruct emails; [done|]. destruct default_limit; [lia|done]. }
  rewrite bind_eq, Hrun, Hall. fold acting.
  set (s2 := {| world := world s1; trace := trace s1 ++ loads;
                outputs := outputs s1; sent := sent s1; replies := replies s1 |}).
  destruct (for_each_runs classify_and_act_node gmail_actions
              (fun a => act_on default_limit a (group a acting))
              (fun a => group_calls a (group a acting))
              (map msg_id (inbox (world s)))) with (s := s2)
    as ([] & s3 & Hrun3 & Hdid3); [|done|].
  { intros a s0 _ HM. apply act_on_runs. intros i Hi. rewrite HM.
    apply (acted_known (input ctx "rules") emails); [done|].
    by apply group_acted with a. }
  rewrite bind_eq, Hrun3.
  destruct (for_each_runs classify_and_act_node acting
              (fun ea =>
                 bind (call default_limit classify_and_act_node append_data
                         (AppendArgs "actions.jsonl"
                            (action_record (fst ea) (snd ea))))
                      (fun _ => ret tt))
              (fun ea => [(append_data,
                           AppendArgs "actions.jsonl"
                             (action_record (fst ea) (snd ea)))])
              (map msg_id (inbox (world s3)))) with (s := s3)
    as ([] & s4 & Hrun4 & Hdid4); [|done|].
  { intros ea s0 _ _. apply runs_bind.
    eapply runs_weaken; [eapply call_runs; apply invoke_append_ok|].
    intros res s5 [_ Hdid]. by apply runs_ret. }
  rewrite bind_eq, Hrun4. unfold set_output.
  rewrite flat_map_singleton in Hdid4.
  destruct (did_trans _ _ _ _ _ _ Hdid3 Hdid4) as (Ht & Ho & Hs & Hr & Hw).
  fold (gmail_calls acting) in Ht, Hw. fold (record_calls acting) in Ht, Hw.
  exists ((load_data, LoadArgs f None None) :: loads). eexists.
  split; [done|]. simpl.
  split; [constructor; [by do 2 eexists|done]|].
  split; [done|].
  rewrite Ht, Ho, Hs, Hr, Hw. simpl.
  split; [by rewrite <- !app_assoc|]. done.
Qed.

(** *** What the invocations of Classify and Act do to the world *)

Lemma group_calls_elem a ids c :
  c ∈ group_calls a ids →
  (∃ i, c = (gmail_trash_message, TrashArgs i) ∧ a = TRASH ∧ i ∈ ids)
  ∨ (c = (gmail_batch_modify_messages,
          BatchModifyArgs ids (add_labels a) (remove_labels a))
     ∧ a ≠ TRASH).
Proof.
  unfold group_calls. destruct ids as [|i0 ids']; [by intros ?%elem_of_nil|].
  destruct a;
    try (intros [->|?%elem_of_nil]%elem_of_cons; [by right|done]).
  intros (i & -> & Hi)%list_elem_of_fmap. left. by exists i.
Qed.

Lemma gmail_calls_elem acting c :
  c ∈ gmail_calls acting →
  (∃ i, c = (gmail_trash_message, TrashArgs i) ∧ i ∈ group TRASH acting)
  ∨ (∃ a, a ≠ TRASH
          ∧ c = (gmail_batch_modify_messages,
                 BatchModifyArgs (group a acting) (add_labels a) (remove_labels a))).
Proof.
  unfold gmail_calls. intros Hc. apply list_elem_of_In, in_flat_map in Hc.
  destruct Hc as (a & _ & Hc). apply list_elem_of_In, group_calls_elem in Hc.
  destruct Hc as [(i & -> & -> & Hi)|[-> Ha]]; [left|right]; eauto.
Qed.

Lemma invoke_keeps_files n tool args w :
  match args with
  | AppendArgs _ _ | BulkFetchArgs _ => False
  | _ => True
  end →
  files (snd (invoke default_limit n tool args w)) = files w.
Proof.
  intros Hargs. unfold invoke. destruct (permitted n tool); [|done].
  destruct (run_tool default_limit tool args w) as [[r w']|] eqn:Hrun; [|done].
  simpl. revert Hrun. unfold run_tool. destruct (negb _); [done|].
  destruct args as [m|f l o|f d|ids add remove|i add remove|i]; simpl; try done.
  - unfold PagedDataStore.load. by intros [= _ <-].
  - destruct (Gmail.modify _ _ _ _); [|done]. by intros [= _ <-].
  - destruct (Gmail.modify _ _ _ _); [|done]. by intros [= _ <-].
  - destruct (Gmail.trash _ _); [|done]. by intros [= _ <-].
Qed.

Lemma attempt_all_cons n tool args cs w :
  attempt_all default_limit n ((tool, args) :: cs) w
  = attempt_all default_limit n cs (snd (invoke default_limit n tool args w)).
Proof. reflexivity. Qed.

Lemma attempt_all_gmail_files n acting w :
  files (attempt_all default_limit n (gmail_calls acting) w) = files w.
Proof.
  assert (Hall : Forall (fun c => match snd c with
                                  | AppendArgs _ _ | BulkFetchArgs _ => False
                                  | _ => True
                                  end) (gmail_calls acting)).
  { apply Forall_forall. intros c Hc.
    by destruct (gmail_calls_elem acting c Hc) as [(i & -> & _)|(a & _ & ->)]. }
  revert w. induction Hall as [|[tool args] cs Hc _ IH]; intros w; [done|].
  by rewrite attempt_all_cons, IH, invoke_keeps_files.
Qed.

Lemma attempt_all_record_calls acting w :
  PagedDataStore.records "actions.jsonl"
    (files (attempt_all default_limit classify_and_act_node
              (record_calls acting) w))
  = PagedDataStore.records "actions.jsonl" (files w)
    ++ map (fun ea => action_record (fst ea) (snd ea)) acting
  ∧ inbox (attempt_all default_limit classify_and_act_node
             (record_calls acting) w) = inbox w
  ∧ ∀ g, g ≠ "actions.jsonl" →
         files (attempt_all default_limit classify_and_act_node
                  (record_calls acting) w) !! g = files w !! g.
Proof.
  revert w. induction acting as [|[e a] acting IH]; intros w.
  - simpl. by rewrite app_nil_r.
  - change (record_calls ((e, a) :: acting))
      with ((append_data, AppendArgs "actions.jsonl" (action_record e a))
            :: record_calls acting).
    rewrite attempt_all_cons, invoke_append_ok. simpl.
    destruct (IH {| files := PagedDataStore.append "actions.jsonl"
                               (action_record e a) (files w);
                    inbox := inbox w |}) as (Hrec & Hbox & Hother).
    simpl in *. rewrite Hrec, Hbox, records_append_same, <- app_assoc.
    split; [done|]. split; [done|].
    intros g Hg. rewrite (Hother g Hg). unfold PagedDataStore.append.
    by rewrite lookup_insert_ne.
Qed.

Lemma classified_acted rules emails :
  map fst (classified dm rules emails)
  = filter (fun e => is_Some (choose_action dm rules e)) emails.
Proof.
  induction emails as [|e emails IH]; simpl; [done|].
  rewrite filter_cons.
  destruct (choose_action dm rules e) as [a|]; simpl.
  - by rewrite IH.
  - done.
Qed.

(** X10. Classify and Act records one action per acted-upon email: on a
    file of fetched emails whose ids are ids of the mailbox, with a
    positive page size and budget for the pages, it returns after loading
    the file, invoking the Gmail tools group by group and appending, for
    each email the rules give an action and for no other, one action
    record to [actions.jsonl], in the order of the emails; it then sets
    [actions_taken] to that file name and leaves every other file as it
    was. *)
Theorem classify_records_every_action budget ctx s :
  PagedDataStore.records (input ctx "emails") (files (world s)) ≠ [] →
  0 < default_limit →
  (length (PagedDataStore.records (input ctx "emails") (files (world s)))
   ≤ S budget * default_limit)%nat →
  ids_known (PagedDataStore.records (input ctx "emails") (files (world s)))
    (inbox (world s)) →
  fst (classify_and_act_session default_limit dm budget ctx s) = Returned tt
  ∧ (∃ loads,
       Forall (is_load (input ctx "emails")) loads
       ∧ new_calls s (classify_and_act_session default_limit dm budget ctx s)
         = loads
           ++ gmail_calls (classified dm (input ctx "rules")
                (PagedDataStore.records (input ctx "emails") (files (world s))))
           ++ record_calls (classified dm (input ctx "rules")
                (PagedDataStore.records (input ctx "emails") (files (world s)))))
  ∧ new_outputs s (classify_and_act_session default_limit dm budget ctx s)
    = [("actions_taken", "actions.jsonl")]
  ∧ PagedDataStore.records "actions.jsonl"
      (files (world (snd (classify_and_act_session default_limit dm budget ctx s))))
    = PagedDataStore.records "actions.jsonl" (files (world s))
      ++ map (fun ea => action_record (fst ea) (snd ea))
           (classified dm (input ctx "rules")
              (PagedDataStore.records (input ctx "emails") (files (world s))))
  ∧ map fst (classified dm (input ctx "rules")
               (PagedDataStore.records (input ctx "emails") (files (world s))))
    = filter (fun e => is_Some (choose_action dm (input ctx "rules") e))
        (PagedDataStore.records (input ctx "emails") (files (world s)))
  ∧ (∀ g, g ≠ "actions.jsonl" →
          files (world (snd (classify_and_act_session default_limit dm budget ctx s)))
            !! g
          = files (world s) !! g).
Proof.
  intros Hsome Hsize Hfit Hknown.
  destruct (classify_runs budget ctx s Hsome Hsize Hfit Hknown)
    as (loads & s' & -> & Hloads & _ & Ht & Ho & _ & _ & Hw).
  simpl. rewrite Hw, attempt_all_app.
  destruct (attempt_all_record_calls
              (classified dm (input ctx "rules")
                 (PagedDataStore.records (input ctx "emails") (files (world s))))
              (attempt_all default_limit classify_and_act_node
                 (gmail_calls (classified dm (input ctx "rules")
                    (PagedDataStore.records (input ctx "emails")
                       (files (world s))))) (world s)))
    as (Hrec & _ & Hother).
  rewrite attempt_all_gmail_files in Hrec, Hother.
  split; [done|]. split.
  { exists loads. split; [done|]. by apply new_calls_app. }
  split. { unfold new_outputs. simpl. by rewrite Ho, drop_app_length. }
  split; [done|]. split; [apply classified_acted|done].
Qed.

(** *** The blanket rule *)

Lemma classified_blanket rules emails a :
  (∀ e, e ∈ emails → choose_action dm rules e = Some a) →
  classified dm rules emails = map (fun e => (e, a)) emails.
Proof.
  induction emails as [|e emails IH]; intros Hall; simpl; [done|].
  rewrite (Hall e) by left. rewrite IH; [done|].
  intros e' He'. apply Hall. by right.
Qed.

Lemma group_blanket a' a (emails : list Line) :
  group a' (map (fun e => (e, a)) emails)
  = if action_eqb a a' then map (text_field "id") emails else [].
Proof.
  unfold group. induction emails as [|e emails IH]; simpl.
  - by destruct (action_eqb a a').
  - rewrite filter_cons. simpl.
    destruct (action_eqb a a') eqn:Heq; case_decide; try done; simpl;
      by rewrite IH.
Qed.

Lemma gmail_calls_blanket a (emails : list Line) :
  gmail_calls (map (fun e => (e, a)) emails)
  = group_calls a (map (text_field "id") emails).
Proof.
  unfold gmail_calls, gmail_actions. cbn [flat_map].
  rewrite !group_blanket.
  destruct a; simpl; rewrite ?app_nil_r;
    by destruct (map (text_field "id") emails).
Qed.

(** X11. A blanket rule takes one batched call: when the rules give every
    loaded email the same label action, the Gmail invocations of Classify
    and Act are exactly one [gmail_batch_modify_messages] on all message
    ids, in file order, with the labels of that action; when the action is
    TRASH they are one [gmail_trash_message] per email.  An action record
    per email follows. *)
Theorem blanket_rule_is_one_batch_call budget ctx s a :
  PagedDataStore.records (input ctx "emails") (files (world s)) ≠ [] →
  0 < default_limit →
  (length (PagedDataStore.records (input ctx "emails") (files (world s)))
   ≤ S budget * default_limit)%nat →
  ids_known (PagedDataStore.records (input ctx "emails") (files (world s)))
    (inbox (world s)) →
  (∀ e, e ∈ PagedDataStore.records (input ctx "emails") (files (world s)) →
        choose_action dm (input ctx "rules") e = Some a) →
  fst (classify_and_act_session default_limit dm budget ctx s) = Returned tt
  ∧ ∃ loads,
      Forall (is_load (input ctx "emails")) loads
      ∧ new_calls s (classify_and_act_session default_limit dm budget ctx s)
        = loads
          ++ match a with
             | TRASH =>
                 map (fun i => (gmail_trash_message, TrashArgs i))
                   (map (text_field "id")
                      (PagedDataStore.records (input ctx "emails")
                         (files (world s))))
             | _ =>
                 [(gmail_batch_modify_messages,
                   BatchModifyArgs
                     (map (text_field "id")
                        (PagedDataStore.records (input ctx "emails")
                           (files (world s))))
                     (add_labels a) (remove_labels a))]
             end
          ++ record_calls
               (map (fun e => (e, a))
                  (PagedDataStore.records (input ctx "emails") (files (world s)))).
Proof.
  intros Hsome Hsize Hfit Hknown Hblanket.
  destruct (classify_runs budget ctx s Hsome Hsize Hfit Hknown)
    as (loads & s' & -> & Hloads & _ & Ht & _).
  split; [done|]. exists loads. split; [done|].
  apply new_calls_app. simpl. rewrite Ht.
  rewrite (classified_blanket _ _ a Hblanket), gmail_calls_blanket.
  do 2 f_equal. unfold group_calls.
  destruct (PagedDataStore.records (input ctx "emails") (files (world s)));
    [done|]. by destruct a.
Qed.

(** *** What ends in the trash, and what is left alone *)

Lemma trashed_after_trash i box :
  i ∈ map msg_id box →
  i ∈ Gmail.trashed_ids
        (map (fun m => if String.eqb (msg_id m) i then Gmail.to_trash m else m) box).
Proof.
  unfold Gmail.trashed_ids. induction box as [|m box IH]; simpl.
  - by intros ?%elem_of_nil.
  - rewrite filter_cons.
    destruct (String.eqb_spec (msg_id m) i) as [Hi|Hi]; simpl.
    + intros _. rewrite Hi. left.
    + intros [?|Hin]%elem_of_cons; [done|].
      destruct (decide (msg_trashed m = true)); [right|]; by apply IH.
Qed.

Lemma trashed_kept_by_trash i box j :
  j ∈ Gmail.trashed_ids box →
  j ∈ Gmail.trashed_ids
        (map (fun m => if String.eqb (msg_id m) i then Gmail.to_trash m else m) box).
Proof.
  unfold Gmail.trashed_ids. induction box as [|m box IH]; simpl; [done|].
  rewrite !filter_cons.
  destruct (decide (msg_trashed m = true)) as [Hm|Hm]; simpl.
  - intros [->|Hin]%elem_of_cons.
    + destruct (String.eqb (msg_id m) i); simpl; [left|].
      rewrite decide_True by done. left.
    + destruct (String.eqb (msg_id m) i); simpl.
      * right. by apply IH.
      * rewrite decide_True by done. right. by apply IH.
  - intros Hin. destruct (String.eqb (msg_id m) i); simpl.
    + right. by apply IH.
    + rewrite decide_False by done. by apply IH.
Qed.

Lemma invoke_keeps_trashed n tool args w j :
  j ∈ Gmail.trashed_ids (inbox w) →
  j ∈ Gmail.trashed_ids (inbox (snd (invoke default_limit n tool args w))).
Proof.
  intros Hj. unfold invoke. destruct (permitted n tool); [|done].
  destruct (run_tool default_limit tool args w) as [[r w']|] eqn:Hrun; [|done].
  simpl. revert Hrun. unfold run_tool. destruct (negb _); [done|].
  destruct args as [m|f l o|f d|ids add remove|i add remove|i]; simpl.
  - destruct (parse_nat m); [|done]. by intros [= _ <-].
  - unfold PagedDataStore.load. by intros [= _ <-].
  - by intros [= _ <-].
  - unfold Gmail.modify. destruct (_ && _); [|done].
    intros [= _ <-]. simpl. by rewrite trashed_ids_relabel.
  - unfold Gmail.modify. destruct (_ && _); [|done].
    intros [= _ <-]. simpl. by rewrite trashed_ids_relabel.
  - unfold Gmail.trash. destruct (Gmail.known _ _); [|done].
    intros [= _ <-]. simpl. by apply trashed_kept_by_trash.
Qed.

Lemma attempt_all_keeps_trashed n cs w j :
  j ∈ Gmail.trashed_ids (inbox w) →
  j ∈ Gmail.trashed_ids (inbox (attempt_all default_limit n cs w)).
Proof.
  revert w. induction cs as [|[tool args] cs IH]; intros w Hj; [done|].
  rewrite attempt_all_cons. by apply IH, invoke_keeps_trashed.
Qed.

Lemma attempt_all_trashes cs w i :
  (gmail_trash_message, TrashArgs i) ∈ cs →
  i ∈ map msg_id (inbox w) →
  i ∈ Gmail.trashed_ids
        (inbox (attempt_all default_limit classify_and_act_node cs w)).
Proof.
  revert w. induction cs as [|[tool args] cs IH]; intros w Hin Hknown.
  - by apply elem_of_nil in Hin.
  - rewrite attempt_all_cons. apply elem_of_cons in Hin as [[= <- <-]|Hin].
    + apply attempt_all_keeps_trashed.
      destruct (invoke_trash_ok i w Hknown) as [w' Hinv].
      revert Hinv. unfold invoke.
      replace (permitted classify_and_act_node gmail_trash_message) with true
        by reflexivity.
      unfold run_tool. simpl. unfold Gmail.trash.
      destruct (Gmail.known [i] (inbox w)); [|done].
      intros _. simpl. by apply trashed_after_trash.
    + apply IH; [done|]. by rewrite invoke_keeps_ids.
Qed.

Lemma trash_requests_elem cs j :
  j ∈ trash_requests cs → ∃ tool, (tool, TrashArgs j) ∈ cs.
Proof.
  induction cs as [|[tool args] cs IH]; simpl; [by intros ?%elem_of_nil|].
  destruct args; try (intros (t & Ht)%IH; exists t; by right).
  intros [->|(t & Ht)%IH]%elem_of_cons; [exists tool; left|exists t; by right].
Qed.

Lemma invoke_frame n tool args w k m :
  inbox w !! k = Some m →
  msg_id m ∉ targets [(tool, args)] →
  inbox (snd (invoke default_limit n tool args w)) !! k = Some m.
Proof.
  intros Hk Hm. unfold invoke. destruct (permitted n tool); [|done].
  destruct (run_tool default_limit tool args w) as [[r w']|] eqn:Hrun; [|done].
  simpl. revert Hrun. unfold run_tool. destruct (negb _); [done|].
  assert (Hmap : ∀ (g : Message -> Message), g m = m →
            map g (inbox w) !! k = Some m).
  { intros g Hg. change (map g (inbox w)) with (g <$> inbox w).
    rewrite list_lookup_fmap, Hk. simpl. by rewrite Hg. }
  destruct args as [x|f l o|f d|ids add remove|i add remove|i]; simpl in *.
  - destruct (parse_nat x); [|done]. by intros [= _ <-].
  - unfold PagedDataStore.load. by intros [= _ <-].
  - by intros [= _ <-].
  - unfold Gmail.modify. destruct (_ && _); [|done].
    intros [= _ <-]. simpl. apply Hmap.
    rewrite bool_decide_eq_false_2; [done|].
    intros Hin. apply Hm. rewrite app_nil_r. done.
  - unfold Gmail.modify. destruct (_ && _); [|done].
    intros [= _ <-]. simpl. apply Hmap.
    rewrite bool_decide_eq_false_2; [done|].
    intros [Heq|?%elem_of_nil]%elem_of_cons; [|done].
    apply Hm. rewrite Heq. left.
  - unfold Gmail.trash. destruct (Gmail.known _ _); [|done].
    intros [= _ <-]. simpl. apply Hmap.
    destruct (String.eqb_spec (msg_id m) i) as [Heq|]; [|done].
    exfalso. apply Hm. rewrite Heq. left.
Qed.

Lemma targets_cons tool args cs i :
  i ∈ targets ((tool, args) :: cs) ↔ i ∈ targets [(tool, args)] ∨ i ∈ targets cs.
Proof.
  destruct args; simpl; rewrite ?app_nil_r, ?elem_of_cons, ?elem_of_app;
    rewrite ?elem_of_nil; tauto.
Qed.

Lemma attempt_all_frame n cs w k m :
  inbox w !! k = Some m →
  msg_id m ∉ targets cs →
  inbox (attempt_all default_limit n cs w) !! k = Some m.
Proof.
  revert w. induction cs as [|[tool args] cs IH]; intros w Hk Hm; [done|].
  rewrite attempt_all_cons. apply IH.
  - apply invoke_frame; [done|]. intros Hin. apply Hm, targets_cons. by left.
  - intros Hin. apply Hm, targets_cons. by right.
Qed.

Lemma targets_elem cs i :
  i ∈ targets cs → ∃ c, c ∈ cs ∧ i ∈ targets [c].
Proof.
  induction cs as [|[tool args] cs IH]; [by intros ?%elem_of_nil|].
  intros [Hi|Hi]%targets_cons.
  - exists (tool, args). split; [left|done].
  - destruct (IH Hi) as (c & Hc & Hic). exists c. split; [by right|done].
Qed.

Lemma classify_targets acting i :
  i ∈ targets (gmail_calls acting ++ record_calls acting) → i ∈ acted_ids acting.
Proof.
  intros (c & Hc & Hi)%targets_elem. apply elem_of_app in Hc as [Hc|Hc].
  - destruct (gmail_calls_elem acting c Hc) as [(j & -> & Hj)|(a & _ & ->)];
      simpl in Hi.
    + apply elem_of_cons in Hi as [->|?%elem_of_nil]; [|done].
      by apply group_acted with TRASH.
    + rewrite app_nil_r in Hi. by apply group_acted with a.
  - unfold record_calls in Hc.
    apply list_elem_of_fmap in Hc as (ea & -> & _). by apply elem_of_nil in Hi.
Qed.

(** X12. Classify and Act trashes the emails the rules mark TRASH and no
    other: on a file of fetched emails whose ids are ids of the mailbox,
    with a positive page size and budget for the pages, the mailbox keeps
    its message ids, every email of the TRASH group is in the trash
    afterwards, nothing else is newly in the trash, and a message the
    rules give no action stays exactly as it was. *)
Theorem classify_trashes_the_trash_group budget ctx s :
  PagedDataStore.records (input ctx "emails") (files (world s)) ≠ [] →
  0 < default_limit →
  (length (PagedDataStore.records (input ctx "emails") (files (world s)))
   ≤ S budget * default_limit)%nat →
  ids_known (PagedDataStore.records (input ctx "emails") (files (world s)))
    (inbox (world s)) →
  map msg_id
    (inbox (world (snd (classify_and_act_session default_limit dm budget ctx s))))
  = map msg_id (inbox (world s))
  ∧ (∀ i,
       i ∈ group TRASH
             (classified dm (input ctx "rules")
                (PagedDataStore.records (input ctx "emails") (files (world s)))) →
       i ∈ Gmail.trashed_ids
             (inbox (world (snd (classify_and_act_session default_limit dm
                                   budget ctx s)))))
  ∧ (∀ j,
       j ∈ Gmail.trashed_ids
             (inbox (world (snd (classify_and_act_session default_limit dm
                                   budget ctx s)))) →
       j ∈ Gmail.trashed_ids (inbox (world s))
       ∨ j ∈ group TRASH
               (classified dm (input ctx "rules")
                  (PagedDataStore.records (input ctx "emails") (files (world s)))))
  ∧ (∀ k m,
       inbox (world s) !! k = Some m →
       msg_id m ∉ acted_ids
                    (classified dm (input ctx "rules")
                       (PagedDataStore.records (input ctx "emails")
                          (files (world s)))) →
       inbox (world (snd (classify_and_act_session default_limit dm budget ctx s)))
         !! k = Some m).
Proof.
  intros Hsome Hsize Hfit Hknown.
  destruct (classify_runs budget ctx s Hsome Hsize Hfit Hknown)
    as (loads & s' & -> & _ & _ & _ & _ & _ & _ & Hw).
  simpl. rewrite Hw.
  set (acting := classified dm (input ctx "rules")
                   (PagedDataStore.records (input ctx "emails") (files (world s)))).
  split; [apply attempt_all_keeps_ids|]. split; [|split].
  - intros i Hi. apply attempt_all_trashes.
    + apply elem_of_app. left. unfold gmail_calls.
      apply list_elem_of_In, in_flat_map. exists TRASH.
      split; [simpl; tauto|]. apply list_elem_of_In.
      unfold group_calls. destruct (group TRASH acting) as [|i0 ids] eqn:Hg;
        [by apply elem_of_nil in Hi|].
      apply list_elem_of_fmap. by exists i.
    + apply (acted_known (input ctx "rules")
               (PagedDataStore.records (input ctx "emails") (files (world s))));
        [done|]. by apply group_acted with TRASH.
  - intros j Hj. apply attempt_all_trashed in Hj as [?|Hj]; [by left|right].
    apply trash_requests_elem in Hj as [tool Hj].
    apply elem_of_app in Hj as [Hj|Hj].
    + by destruct (gmail_calls_elem acting _ Hj) as [(i & [= _ ->] & Hi)|(a & _ & [=])].
    + unfold record_calls in Hj. by apply list_elem_of_fmap in Hj as (ea & [=] & _).
  - intros k m Hk Hm. apply attempt_all_frame; [done|].
    intros Hin. by apply Hm, classify_targets.
Qed.

(** X14. The first tool invocation of Classify and Act is always
    [load_data] on the file its [emails] input names, with no limit and no
    offset, whatever the file holds and whatever follows. *)
Theorem classify_first_loads_the_emails budget ctx s :
  ∃ rest,
    new_calls s (classify_and_act_session default_limit dm budget ctx s)
    = (load_data, LoadArgs (input ctx "emails") None None) :: rest.
Proof.
  unfold classify_and_act_session.
  match goal with
  | |- context [bind (call default_limit ?n ?tool ?args) ?k s] =>
      destruct (call_then default_limit n tool args k s) as [rest Hrest]
  end.
  - intros [f|rs more|]; try (apply keeps_ret, _).
    destruct rs as [|e rs]; [by apply set_output_grew|].
    apply keeps_bind; [apply _| |intros rest].
    { destruct more; [|apply keeps_ret, _].
      apply load_more_keeps; [apply _|intros; by apply call_grew]. }
    apply keeps_bind; [apply _| |intros _].
    { apply keeps_for_each; [apply _|intros a].
      apply (act_on_keeps default_limit _ ctx). intros; by apply call_grew. }
    apply keeps_bind; [apply _| |intros; by apply set_output_grew].
    apply keeps_for_each; [apply _|intros ea].
    apply keeps_bind; [apply _|by apply call_grew|intros; apply keeps_ret, _].
  - exists rest. by apply new_calls_app.
Qed.

(** *** The whole pipeline *)

Lemma session_of_context budget n (st : gmap string string) :
  n ∈ all_nodes →
  session_of default_limit dm budget n (context n st)
  = session_of default_limit dm budget n st.
Proof.
  intros Hn.
  assert (Hlookup : ∀ k, k ∈ input_keys n → context n st !! k = st !! k).
  { intros k Hk. unfold context. rewrite map_lookup_filter.
    destruct (st !! k) as [v|]; simpl; [|done]. by rewrite option_guard_True. }
  node_cases Hn; unfold session_of; simpl.
  - unfold intake_session, input.
    rewrite (Hlookup "rules"), (Hlookup "max_emails"); [done|is_member..].
  - unfold fetch_emails_session, input.
    rewrite (Hlookup "max_emails"); [done|is_member].
  - unfold classify_and_act_session, input.
    rewrite (Hlookup "rules"), (Hlookup "emails"); [done|is_member..].
  - unfold report_session, input.
    rewrite (Hlookup "actions_taken"); [done|is_member].
Qed.

Lemma output_keys_pass n outs :
  n ∈ all_nodes →
  map fst outs = output_keys n →
  output_failure (id n) (output_keys n) outs = None.
Proof.
  intros Hn Hkeys. node_cases Hn; simpl in *;
    repeat (destruct outs as [|[? ?] outs]; simplify_eq/=); reflexivity.
Qed.

Lemma output_keys_unset n :
  n ∈ all_nodes →
  ∃ k, k ∈ output_keys n
       ∧ output_failure (id n) (output_keys n) []
         = Some (IncompleteOutputError (id n) k).
Proof.
  intros Hn. node_cases Hn; eexists; (split; [|reflexivity]); simpl; left.
Qed.

Lemma run_keeps_contracts budget pipeline :
  ∀ have r,
    (∀ n, n ∈ pipeline → n ∈ all_nodes) →
    inputs_available have pipeline = true →
    (∀ k, k ∈ have → is_Some (store r !! k)) →
    (∀ e, fst (run (session_of default_limit dm budget) pipeline r) = Some e →
       (∃ tool, e = ToolExecutionError tool)
       ∨ (∃ n k, n ∈ pipeline ∧ k ∈ output_keys n
                 ∧ e = IncompleteOutputError (id n) k))
    ∧ (fst (run (session_of default_limit dm budget) pipeline r) = None →
       ∀ k, k ∈ have ++ flat_map output_keys pipeline →
            is_Some (store (snd (run (session_of default_limit dm budget)
                                   pipeline r)) !! k)).
Proof.
  induction pipeline as [|n pipeline IH]; intros have r Hall Hok Hhave.
  { simpl. split; [done|]. intros _ k Hk. rewrite app_nil_r in Hk. by apply Hhave. }
  assert (Hn : n ∈ all_nodes) by (apply Hall; left).
  apply andb_true_iff in Hok as [Hhere Hrest].
  rewrite forallb_forall in Hhere.
  cbn [run]. rewrite missing_input_none.
  2:{ intros k Hk. apply Hhave.
      apply list_elem_of_In, Hhere, bool_decide_eq_true in Hk. done. }
  set (s0 := {| world := run_world r; trace := []; outputs := []; sent := [];
                replies := pending r |}).
  pose proof (session_of_completes budget n (context n (store r)) Hn s0)
    as (Hout & Hret & Hnot).
  pose proof (session_of_fails_by_execution budget n (context n (store r)) Hn s0)
    as Hfail.
  revert Hout Hret Hnot Hfail.
  destruct (session_of default_limit dm budget n (context n (store r)) s0)
    as [o s].
  cbn [fst snd]. intros Hout Hret Hnot Hfail. simpl in Hout.
  destruct o as [[]|e'|].
  - specialize (Hret eq_refl). rewrite <- Hout in Hret.
    pose proof (output_keys_pass n (outputs s) Hn Hret) as Hpass.
    rewrite Hpass.
    destruct (IH (have ++ output_keys n)
                {| store := commit (outputs s) (store r); run_world := world s;
                   transcript := transcript r ++ sent s; pending := replies s |})
      as [Hfails Hkeys]; [intros; apply Hall; by right|done| |].
    { simpl. intros k [Hk|Hk]%elem_of_app.
      - by apply commit_keeps_keys, Hhave.
      - apply commit_sets_keys.
        by rewrite (output_failure_none _ _ _ _ Hpass Hk). }
    split.
    + intros e He. destruct (Hfails e He) as [?|(n' & k & Hn' & Hk & ->)]; [by left|].
      right. exists n', k. split; [by right|done].
    + intros Hnone k Hk. apply Hkeys; [done|].
      by rewrite <- app_assoc.
  - simpl. split; [|done]. intros e [= <-]. left. by apply Hfail.
  - rewrite Hout, (Hnot ltac:(done)).
    destruct (output_keys_unset n Hn) as (k & Hk & ->).
    simpl. split; [|done]. intros e [= <-]. right. exists n, k.
    split; [left|done].
Qed.

(** X15. The four nodes keep their contracts when they are run in order:
    started with both seed keys, a run by the prescribed procedures never
    halts on a missing input, on an output set twice or on a tool outside a
    whitelist.  It halts only when the execution of a tool fails or when a
    node ends with a declared output unset, and a run that does not halt
    ends with the five keys in the store. *)
Theorem configured_run_keeps_node_contracts budget r :
  is_Some (store r !! "rules") →
  is_Some (store r !! "max_emails") →
  (∀ e, fst (run (session_of default_limit dm budget) all_nodes r) = Some e →
     (∃ tool, e = ToolExecutionError tool)
     ∨ (∃ n k, n ∈ all_nodes ∧ k ∈ output_keys n
               ∧ e = IncompleteOutputError (id n) k))
  ∧ (fst (run (session_of default_limit dm budget) all_nodes r) = None →
     ∀ k, k ∈ ["rules"; "max_emails"; "emails"; "actions_taken"; "summary_report"] →
          is_Some (store (snd (run (session_of default_limit dm budget)
                                 all_nodes r)) !! k)).
Proof.
  intros Hrules Hmax.
  destruct (run_keeps_contracts budget all_nodes seed_keys r) as [Hfails Hkeys].
  - done.
  - by vm_compute.
  - intros k Hk. apply list_elem_of_In in Hk. simpl in Hk.
    by destruct Hk as [<-|[<-|[]]].
  - split; [exact Hfails|].
    intros Hnone k Hk. apply Hkeys; [done|].
    apply list_elem_of_In in Hk. simpl in Hk.
    destruct Hk as [<-|[<-|[<-|[<-|[<-|[]]]]]];
      apply (bool_decide_unpack _); vm_compute; exact I.
Qed.

(** *** When the budget does not reach the end of the file *)

Lemma load_more_runs_out budget n f offset s :
  load_data ∈ tools n →
  0 < default_limit →
  (budget * default_limit
   < length (PagedDataStore.records f (files (world s))) - offset)%nat →
  ∃ loads,
    load_more default_limit budget n f offset s =
      (Exhausted,
       {| world := world s; trace := trace s ++ loads; outputs := outputs s;
          sent := sent s; replies := replies s |})
    ∧ Forall (is_load f) loads
    ∧ length loads = budget.
Proof.
  intros Hin Hsize. revert offset s.
  induction budget as [|budget IH]; intros offset s Hshort.
  - exists []. rewrite app_nil_r. split; [by destruct s|done].
  - set (rs := PagedDataStore.records f (files (world s))) in *.
    simpl load_more. rewrite bind_eq, call_load by done.
    cbn [from_option Datatypes.id]. fold rs.
    rewrite bool_decide_eq_true_2 by (simpl in Hshort; lia).
    assert (Hlen : length (take default_limit (drop offset rs)) = default_limit).
    { rewrite length_take, length_drop. simpl in Hshort. lia. }
    rewrite bind_eq, Hlen.
    destruct (IH (offset + default_limit)
                (logged load_data (LoadArgs f None (Some offset)) (world s) s))
      as (loads & Hrun & Hloads & Hcount).
    { simpl. fold rs. simpl in Hshort. lia. }
    rewrite Hrun. simpl.
    exists ((load_data, LoadArgs f None (Some offset)) :: loads).
    split; [by rewrite <- app_assoc|].
    split; [constructor; [by do 2 eexists|done]|simpl; by rewrite Hcount].
Qed.

(** X16. Classify and Act acts only once it has loaded every email: when
    the file holds more emails than its budget of page loads reaches, the
    session ends exhausted having made [load_data] invocations only, one
    per unit of budget and one for the first page; no Gmail tool is
    invoked, no record appended, and [actions_taken] is not set. *)
Theorem classify_acts_only_after_loading_all budget ctx s :
  0 < default_limit →
  (S budget * default_limit
   < length (PagedDataStore.records (input ctx "emails") (files (world s))))%nat →
  fst (classify_and_act_session default_limit dm budget ctx s) = Exhausted
  ∧ world (snd (classify_and_act_session default_limit dm budget ctx s)) = world s
  ∧ outputs (snd (classify_and_act_session default_limit dm budget ctx s))
    = outputs s
  ∧ Forall (is_load (input ctx "emails"))
      (new_calls s (classify_and_act_session default_limit dm budget ctx s))
  ∧ length (new_calls s (classify_and_act_session default_limit dm budget ctx s))
    = S budget.
Proof.
  intros Hsize Hshort.
  set (f := input ctx "emails") in *.
  set (emails := PagedDataStore.records f (files (world s))) in *.
  unfold classify_and_act_session. fold f.
  rewrite bind_eq, call_load by is_member.
  cbn [from_option Datatypes.id]. rewrite drop_0. fold emails.
  rewrite bool_decide_eq_true_2 by (simpl in Hshort; lia).
  destruct (take default_limit emails) as [|e page] eqn:Hpage.
  { destruct emails; [simpl in Hshort; lia|]. destruct default_limit; [lia|done]. }
  assert (Hlen : length (e :: page) = default_limit).
  { rewrite <- Hpage, length_take. simpl in Hshort. lia. }
  rewrite bind_eq, Hlen.
  destruct (load_more_runs_out budget classify_and_act_node f default_limit
              (logged load_data (LoadArgs f None None) (world s) s))
    as (loads & Hrun & Hloads & Hcount); [is_member|done| |].
  { simpl. fold emails. simpl in Hshort. lia. }
  rewrite Hrun. simpl.
  assert (Hnew : new_calls s
            (@Exhausted unit,
             {| world := world s;
                trace := (trace s ++ [(load_data, LoadArgs f None None)]) ++ loads;
                outputs := outputs s; sent := sent s; replies := replies s |})
            = (load_data, LoadArgs f None None) :: loads).
  { apply new_calls_app. simpl. by rewrite <- app_assoc. }
  rewrite Hnew. repeat split; [|simpl; by rewrite Hcount].
  constructor; [by do 2 eexists|done].
Qed.

(** *** A run the user never confirms *)

(** X18. Nothing happens to the mailbox without a confirmation: started
    with both seed keys and a user who refuses every time, or stops
    answering, the run halts at Intake on its unset output [rules]; no
    tool has been invoked, files, mailbox and store are as they were, and
    no later node has run. *)
Theorem unconfirmed_run_touches_nothing budget r :
  is_Some (store r !! "rules") →
  is_Some (store r !! "max_emails") →
  (∀ b, b ∈ take budget (pending r) → b = false) →
  fst (run (session_of default_limit dm budget) all_nodes r)
  = Some (IncompleteOutputError "intake" "rules")
  ∧ run_world (snd (run (session_of default_limit dm budget) all_nodes r))
    = run_world r
  ∧ store (snd (run (session_of default_limit dm budget) all_nodes r)) = store r.
Proof.
  intros [rules Hrules] [max Hmax] Hall.
  unfold all_nodes. simpl run. rewrite Hrules, Hmax.
  rewrite session_of_context by (unfold all_nodes; left).
  change (session_of default_limit dm budget intake_node (store r))
    with (intake_session dm budget (store r)).
  set (s0 := {| world := run_world r; trace := []; outputs := []; sent := [];
                replies := pending r |}).
  destruct (intake_confirm_unconfirmed
              (present dm (describe_rules dm (input (store r) "rules"))
                 (batch_size dm (store r !! "max_emails"))) budget s0 Hall)
    as (Hex & Hw & _ & Ho).
  unfold intake_session. rewrite bind_eq.
  destruct (intake_confirm budget _ s0) as [[[]|e|] s1]; simpl in *; try done.
  by rewrite Ho, Hw.
Qed.

End Procedures.

Lemma sessions_invoke_whitelisted_tools_witness :
  Forall (fun c => fst c ∈ tools classify_and_act_node)
    (new_calls (Sample.start Sample.fetched [])
       (session_of Sample.page_size Sample.dm 10 classify_and_act_node
          Sample.classify_context (Sample.start Sample.fetched []))).
Proof.
  destruct (sessions_invoke_whitelisted_tools Sample.page_size Sample.dm 10
              classify_and_act_node Sample.classify_context
              (Sample.start Sample.fetched [])) as (_ & Hcalls & _).
  - unfold all_nodes. right. right. left.
  - exact Hcalls.
Defined.

Lemma returned_sessions_set_declared_outputs_witness :
  map fst (new_outputs (Sample.start Sample.fetched [])
             (session_of Sample.page_size Sample.dm 10 classify_and_act_node
                Sample.classify_context (Sample.start Sample.fetched [])))
  = ["actions_taken"].
Proof.
  destruct (returned_sessions_set_declared_outputs Sample.page_size Sample.dm 10
              classify_and_act_node Sample.classify_context
              (Sample.start Sample.fetched [])) as (_ & Hret & _).
  - unfold all_nodes. right. right. left.
  - apply Hret. vm_compute. reflexivity.
Defined.

Lemma label_reference_within_vocabulary_witness :
  ∃ box', Gmail.modify ["m1"; "m2"] (add_labels MARK_AS_SPAM)
            (remove_labels MARK_AS_SPAM) Sample.mailbox = Some box'
          ∧ map msg_id box' = map msg_id Sample.mailbox
          ∧ Gmail.trashed_ids box' = Gmail.trashed_ids Sample.mailbox.
Proof.
  destruct (label_reference_within_vocabulary MARK_AS_SPAM ["m1"; "m2"]
              Sample.mailbox) as (_ & _ & _ & _ & _ & Hmodify).
  - discriminate.
  - vm_compute. reflexivity.
  - exact Hmodify.
Defined.


Lemma intake_sets_nothing_unconfirmed_witness :
  fst (intake_session Sample.dm 2 Sample.rules_only
         (Sample.start Sample.world0 [false; false; true])) = Exhausted.
Proof.
  apply (intake_sets_nothing_unconfirmed Sample.dm 2 Sample.rules_only
           (Sample.start Sample.world0 [false; false; true])).
  intros b Hb. apply list_elem_of_In in Hb. simpl in Hb.
  by destruct Hb as [<-|[<-|[]]].
Defined.

Lemma load_more_reads_the_rest_witness :
  fst (load_more Sample.page_size 1 report_node "emails.jsonl" 2
         (Sample.start Sample.fetched []))
  = Returned (drop 2 (PagedDataStore.records "emails.jsonl" (files Sample.fetched))).
Proof.
  destruct (load_more_reads_the_rest Sample.page_size 1 report_node
              "emails.jsonl" 2 (Sample.start Sample.fetched []))
    as (loads & Hrun & _).
  - simpl. left.
  - unfold Sample.page_size. lia.
  - lia.
  - vm_compute. lia.
  - rewrite Hrun. reflexivity.
Defined.

Lemma report_is_written_from_every_record_witness :
  outputs (snd (report_session Sample.page_size Sample.dm 1
                  {[ "actions_taken" := "emails.jsonl" ]}
                  (Sample.start Sample.fetched [])))
  = [("summary_report", "3 emails processed.")].
Proof.
  destruct (report_is_written_from_every_record Sample.page_size Sample.dm 1
              {[ "actions_taken" := "emails.jsonl" ]}
              (Sample.start Sample.fetched [])) as (loads & Hrun & _).
  - vm_compute. discriminate.
  - unfold Sample.page_size. lia.
  - vm_compute. lia.
  - rewrite Hrun. vm_compute. reflexivity.
Defined.

Lemma classify_records_every_action_witness :
  PagedDataStore.records "actions.jsonl" (files (world (snd Sample.classified_run)))
  = PagedDataStore.records "actions.jsonl" (files Sample.fetched)
    ++ map (fun ea => action_record (fst ea) (snd ea))
         (classified Sample.dm "trash ads"
            (PagedDataStore.records "emails.jsonl" (files Sample.fetched))).
Proof.
  destruct (classify_records_every_action Sample.page_size Sample.dm 10
              Sample.classify_context (Sample.start Sample.fetched []))
    as (_ & _ & _ & Hrec & _).
  - vm_compute. discriminate.
  - unfold Sample.page_size. lia.
  - vm_compute. lia.
  - intros e He. vm_compute in He.
    apply list_elem_of_In in He. simpl in He.
    destruct He as [<-|[<-|[<-|[]]]]; apply (bool_decide_unpack _);
      vm_compute; exact I.
  - exact Hrec.
Defined.

Lemma classify_trashes_the_trash_group_witness :
  "m3" ∈ Gmail.trashed_ids (inbox (world (snd Sample.classified_run))).
Proof.
  destruct (classify_trashes_the_trash_group Sample.page_size Sample.dm 10
              Sample.classify_context (Sample.start Sample.fetched []))
    as (_ & Htrash & _).
  - vm_compute. discriminate.
  - unfold Sample.page_size. lia.
  - vm_compute. lia.
  - intros e He. vm_compute in He.
    apply list_elem_of_In in He. simpl in He.
    destruct He as [<-|[<-|[<-|[]]]]; apply (bool_decide_unpack _);
      vm_compute; exact I.
  - apply Htrash. apply (bool_decide_unpack _). vm_compute. exact I.
Defined.

Lemma blanket_rule_is_one_batch_call_witness :
  ∃ loads,
    new_calls (Sample.start Sample.fetched []) Blanket.run
    = loads
      ++ [(gmail_batch_modify_messages,
           BatchModifyArgs ["m1"; "m2"; "m3"] ["UNREAD"] [])]
      ++ record_calls
           (map (fun e => (e, MARK_AS_UNREAD))
              (PagedDataStore.records "emails.jsonl" (files Sample.fetched))).
Proof.
  destruct (blanket_rule_is_one_batch_call Sample.page_size Blanket.dm 10
              Sample.classify_context (Sample.start Sample.fetched [])
              MARK_AS_UNREAD) as (_ & loads & _ & Hcalls).
  - vm_compute. discriminate.
  - unfold Sample.page_size. lia.
  - vm_compute. lia.
  - intros e He. vm_compute in He.
    apply list_elem_of_In in He. simpl in He.
    destruct He as [<-|[<-|[<-|[]]]]; apply (bool_decide_unpack _);
      vm_compute; exact I.
  - reflexivity.
  - exists loads. exact Hcalls.
Defined.

Lemma configured_run_keeps_node_contracts_witness :
  is_Some (store (snd (run (session_of Sample.page_size Sample.dm 10) all_nodes
                         Blanket.initial)) !! "summary_report").
Proof.
  destruct (configured_run_keeps_node_contracts Sample.page_size Sample.dm 10
              Blanket.initial) as [_ Hkeys].
  - vm_compute. by eexists.
  - vm_compute. by eexists.
  - apply Hkeys; [vm_compute; reflexivity|].
    apply (bool_decide_unpack _). vm_compute. exact I.
Defined.

Lemma classify_acts_only_after_loading_all_witness :
  fst (classify_and_act_session 1 Sample.dm 1 Sample.classify_context
         (Sample.start Sample.fetched [])) = Exhausted.
Proof.
  apply (classify_acts_only_after_loading_all 1 Sample.dm 1
           Sample.classify_context (Sample.start Sample.fetched [])).
  - lia.
  - vm_compute. lia.
Defined.

Lemma unconfirmed_run_touches_nothing_witness :
  fst (run (session_of Sample.page_size Sample.dm 2) all_nodes Blanket.initial)
  = Some (IncompleteOutputError "intake" "rules").
Proof.
  apply (unconfirmed_run_touches_nothing Sample.page_size Sample.dm 2
           Blanket.initial).
  - vm_compute. by eexists.
  - vm_compute. by eexists.
  - intros b Hb. apply list_elem_of_In in Hb. simpl in Hb.
    by destruct Hb as [<-|[<-|[]]].
Defined.
